(** * draf: scenario registry, sweeps and Pareto normalisation

    A shallow embedding of [draf/core/case_study.py] (class [CaseStudy]) and
    of the table in [draf/core/mappings.py].

    Python objects are mutable and shared; here every method is a function
    in a state-and-exception monad over the object it mutates, and the state
    reached when an exception escapes is kept, as in Python.  The registry
    [CaseStudy.scens] is a plain object whose attributes are the scenarios:
    its [__dict__] is an insertion-ordered dictionary, modelled as an
    association list with unique keys.

    The modelled methods reach a scenario object only through the registry
    or through a local variable bound to a registered object; a write
    through such a variable is a write to the registry entry ([on_scen]).

    Left out: the attributes of [CaseStudy] that none of these methods
    branch on (name, year, freq, country, coords, the time index), logging,
    printing, progress bars and wall-clock timings.  The table of a sweep
    carries the values as they are given; pandas may widen an integer to the
    float of the same value on the way, which Python's [==] does not
    tell apart. *)

From Stdlib Require Import Floats.PrimFloat Uint63.
From stdpp Require Import gmap strings list pretty.

Open Scope string_scope.

(** ** Python values and exceptions *)

(** The values a sweep hands around: Python [int], [float] (binary64) and
    [str]. *)
Inductive Value :=
  | VInt (z : Z)
  | VFloat (f : float)
  | VStr (s : string).

(** The exceptions the modelled code can let escape.  [UnknownEntity] is the
    lookup miss of the scenario's entity stores. *)
Inductive exn :=
  | AttributeError (attr : string)
  | IndexError
  | TypeError
  | ValueError
  | UnknownEntity (name : string).

Inductive result (A : Type) :=
  | Ok (a : A)
  | Raise (e : exn).
Arguments Ok {A} a.
Arguments Raise {A} e.

Definition is_Ok {A} (r : result A) : bool :=
  match r with Ok _ => true | Raise _ => false end.

(** A method acting on a mutable object of type [S]. *)
Definition Py (S A : Type) : Type := S → result A * S.

Global Instance Py_ret {S} : MRet (Py S) := λ A a s, (Ok a, s).
Global Instance Py_bind {S} : MBind (Py S) := λ A B k m s,
  match m s with
  | (Ok a, s') => k a s'
  | (Raise e, s') => (Raise e, s')
  end.

Definition raise {S A} (e : exn) : Py S A := λ s, (Raise e, s).
Definition gets {S A} (f : S → A) : Py S A := λ s, (Ok (f s), s).
Definition modify {S} (f : S → S) : Py S unit := λ s, (Ok tt, f s).
Definition lift {S A} (r : result A) : Py S A := λ s, (r, s).

(** [for x in l: body x] *)
Fixpoint for_each {S A} (l : list A) (body : A → Py S unit) : Py S unit :=
  match l with
  | [] => mret tt
  | x :: l' => body x ;; for_each l' body
  end.

(** ** mappings.py *)

Definition GRB_OPT_STATUS : gmap Z string :=
  list_to_map
    [ (1, "LOADED"); (2, "OPTIMAL"); (3, "INFEASIBLE"); (4, "INF_OR_UNBD");
      (5, "UNBOUNDED"); (6, "CUTOFF"); (7, "ITERATION_LIMIT");
      (8, "NODE_LIMIT"); (9, "TIME_LIMIT"); (10, "SOLUTION_LIMIT");
      (11, "INTERRUPTED"); (12, "NUMERIC"); (13, "SUBOPTIMAL");
      (14, "INPROGRESS"); (15, "USER_OBJ_LIMIT") ]%Z.

(** ** Scenario

    [draf.core.scenario] is not among the sources; the record holds the
    attributes of a scenario that [CaseStudy] reads and writes. *)

(** The optimisation model is an opaque handle built by an external
    collaborator and solved by another; a handle is represented by what the
    solver answers on it: a Gurobi status code and the values of the
    result entities. *)
Definition Model : Type := Z * gmap string float.

(** [model_func]: the builder, which reads the scenario's parameters and
    variable metadata. *)
Definition ModelFunc : Type :=
  gmap string Value → gmap string (gmap string Value) → Model.

Record Scenario := mkScenario {
  sc_id : string;
  sc_name : string;
  sc_doc : string;
  params : gmap string Value;                    (* sc.params *)
  vars_meta : gmap string (gmap string Value);   (* sc.vars._meta *)
  mdl : option Model;                            (* sc.mdl *)
  res : option (gmap string float);              (* sc.res, when the attribute exists *)
  solve_status : option Z;                       (* status of the last solve *)
}.

Definition set_sc_id (v : string) (sc : Scenario) : Scenario :=
  mkScenario v (sc_name sc) (sc_doc sc) (params sc) (vars_meta sc) (mdl sc)
             (res sc) (solve_status sc).
Definition set_sc_name (v : string) (sc : Scenario) : Scenario :=
  mkScenario (sc_id sc) v (sc_doc sc) (params sc) (vars_meta sc) (mdl sc)
             (res sc) (solve_status sc).
Definition set_sc_doc (v : string) (sc : Scenario) : Scenario :=
  mkScenario (sc_id sc) (sc_name sc) v (params sc) (vars_meta sc) (mdl sc)
             (res sc) (solve_status sc).
Definition set_params (v : gmap string Value) (sc : Scenario) : Scenario :=
  mkScenario (sc_id sc) (sc_name sc) (sc_doc sc) v (vars_meta sc) (mdl sc)
             (res sc) (solve_status sc).
Definition set_vars_meta (v : gmap string (gmap string Value)) (sc : Scenario)
  : Scenario :=
  mkScenario (sc_id sc) (sc_name sc) (sc_doc sc) (params sc) v (mdl sc)
             (res sc) (solve_status sc).
Definition set_mdl (v : option Model) (sc : Scenario) : Scenario :=
  mkScenario (sc_id sc) (sc_name sc) (sc_doc sc) (params sc) (vars_meta sc) v
             (res sc) (solve_status sc).

(** Modelled from the spec: the constructor [Scenario(id=..., name=...,
    doc=..., ...)] of [draf.core.scenario]; a scenario made from scratch has
    empty entity stores, no model and no results. *)
Definition Scenario_init (id name doc : string) : Scenario :=
  mkScenario id name doc ∅ ∅ None None None.

(** Modelled from the spec: [Scenario._special_copy]; the copy duplicates
    the parameters and the variable metadata by value and is unsolved: it
    has no results and no solve status. *)
Definition _special_copy (sc : Scenario) : Scenario :=
  mkScenario (sc_id sc) (sc_name sc) (sc_doc sc) (params sc) (vars_meta sc)
             (mdl sc) None None.

(** Modelled from the spec: [Scenario.update_params] called with one
    keyword, the entity store's [set]: overwrites or creates the parameter. *)
Definition update_params (name : string) (value : Value) (sc : Scenario)
  : Scenario :=
  set_params (<[name := value]> (params sc)) sc.

(** Modelled from the spec: [Scenario.get_entity(name)]; reads the current
    value of a parameter, or of a result once the scenario has results, and
    fails with [UnknownEntity] when no entity has that name. *)
Definition get_entity (name : string) (sc : Scenario) : result Value :=
  match params sc !! name with
  | Some v => Ok v
  | None =>
      match res sc ≫= (.!! name) with
      | Some f => Ok (VFloat f)
      | None => Raise (UnknownEntity name)
      end
  end.

(** Modelled from the spec: [Scenario.set_model(model_func)]; the external
    builder makes the model from the scenario as it is now. *)
Definition set_model (model_func : ModelFunc) (sc : Scenario) : Scenario :=
  set_mdl (Some (model_func (params sc) (vars_meta sc))) sc.

(** The status names under which a solve counts as a success. *)
Definition is_success (code : Z) : bool :=
  bool_decide (GRB_OPT_STATUS !! code = Some "OPTIMAL"
               ∨ GRB_OPT_STATUS !! code = Some "SUBOPTIMAL").

(** Modelled from the spec: [Scenario.optimize]; delegates to the external
    solver, records its status, and populates the results on success; on
    failure the results are empty.  A scenario without a model has no
    [mdl] attribute to solve. *)
Definition optimize : Py Scenario unit := λ sc,
  match mdl sc with
  | None => (Raise (AttributeError "mdl"), sc)
  | Some (code, values) =>
      (Ok tt,
       mkScenario (sc_id sc) (sc_name sc) (sc_doc sc) (params sc)
                  (vars_meta sc) (mdl sc)
                  (if is_success code then Some values else None)
                  (Some code))
  end.

(** ** The registry: attributes of a plain Python object *)

Section attrs.
Context {A : Type}.

(** [getattr(obj, k)]; [None] stands for [AttributeError]. *)
Fixpoint getattr (k : string) (d : list (string * A)) : option A :=
  match d with
  | [] => None
  | (k', v) :: d' => if decide (k = k') then Some v else getattr k d'
  end.

(** [setattr(obj, k, v)]: an existing attribute is rebound in place, a new
    one goes last. *)
Fixpoint setattr (k : string) (v : A) (d : list (string * A))
  : list (string * A) :=
  match d with
  | [] => [(k, v)]
  | (k', v') :: d' =>
      if decide (k = k') then (k, v) :: d' else (k', v') :: setattr k v d'
  end.

(** [delattr(obj, k)], for an attribute that exists. *)
Definition delattr (k : string) (d : list (string * A)) : list (string * A) :=
  filter (λ p, p.1 ≠ k) d.
End attrs.

(** ** CaseStudy *)

(** One element of [scen_vars]: (long entity name, short name, values). *)
Abbreviation Axis := (string * string * list Value)%type.

Record CaseStudy := mkCaseStudy {
  scens : list (string * Scenario);               (* self.scens.__dict__ *)
  obj_vars : list string;
  scen_vars : option (list Axis);
  scen_df : list (string * list (string * Value));  (* one column per scenario *)
}.

Definition set_scens (v : list (string * Scenario)) (cs : CaseStudy) : CaseStudy :=
  mkCaseStudy v (obj_vars cs) (scen_vars cs) (scen_df cs).
Definition set_scen_vars (v : option (list Axis)) (cs : CaseStudy) : CaseStudy :=
  mkCaseStudy (scens cs) (obj_vars cs) v (scen_df cs).
Definition set_scen_df (v : list (string * list (string * Value)))
    (cs : CaseStudy) : CaseStudy :=
  mkCaseStudy (scens cs) (obj_vars cs) (scen_vars cs) v.

(** [CaseStudy(obj_vars=("C_TOT_", "CE_TOT_"))] *)
Definition CaseStudy_init (obj_vars : list string) : CaseStudy :=
  mkCaseStudy [] obj_vars None [].

Definition default_obj_vars : list string := ["C_TOT_"; "CE_TOT_"].

Definition scens_dic (cs : CaseStudy) : list (string * Scenario) := scens cs.
Definition scens_ids (cs : CaseStudy) : list string := (scens_dic cs).*1.
Definition scens_list (cs : CaseStudy) : list Scenario := (scens_dic cs).*2.

(** [hasattr(sc, "res")] *)
Definition has_res (sc : Scenario) : bool :=
  match res sc with Some _ => true | None => false end.

Definition valid_scens (cs : CaseStudy) : list (string * Scenario) :=
  filter (λ p, has_res p.2 = true) (scens_dic cs).

(** [getattr(self.scens, k)] as a method of the case study. *)
Definition get_scen (k : string) : Py CaseStudy Scenario := λ cs,
  match getattr k (scens cs) with
  | Some sc => (Ok sc, cs)
  | None => (Raise (AttributeError k), cs)
  end.

(** [delattr(self.scens, k)] *)
Definition del_scen (k : string) : Py CaseStudy unit := λ cs,
  match getattr k (scens cs) with
  | Some _ => (Ok tt, set_scens (delattr k (scens cs)) cs)
  | None => (Raise (AttributeError k), cs)
  end.

(** [setattr(self.scens, k, sc)] *)
Definition put_scen (k : string) (sc : Scenario) : Py CaseStudy unit :=
  modify (λ cs, set_scens (setattr k sc (scens cs)) cs).

(** Runs a scenario method on the object bound to a local variable [sc] that
    is also stored in the registry under [k]: what the method does to the
    object is seen through the registry, whether it raises or not. *)
Definition on_scen {A} (k : string) (sc : Scenario) (m : Py Scenario A)
  : Py CaseStudy A := λ cs,
  let '(r, sc') := m sc in (r, set_scens (setattr k sc' (scens cs)) cs).

Definition REF_scen : Py CaseStudy Scenario := λ cs,
  match getattr "REF" (scens cs) with
  | Some sc => (Ok sc, cs)
  | None =>
      match scens_list cs with
      | sc :: _ => (Ok sc, cs)
      | [] => (Raise IndexError, cs)
      end
  end.

(** Lines 234 to 237: the copy of the base scenario under its new identity. *)
Definition derive (id name doc : string) (base : Scenario) : Scenario :=
  let sc := _special_copy base in
  set_sc_doc doc (set_sc_name name (set_sc_id id sc)).

Definition add_scen (id : option string) (name doc : string)
    (based_on : option string) (based_on_last : bool)
  : Py CaseStudy Scenario :=
  ids ← gets scens_ids;
  bd ← (if based_on_last then
          match last ids with
          | Some b => mret (Some b, b +:+ " + " +:+ doc)
          | None => raise IndexError
          end
        else mret (based_on, doc)) : Py CaseStudy (option string * string);
  let based_on := bd.1 in
  let doc := bd.2 in
  n ← gets (λ cs, length (scens_list cs));
  let id := match id with Some id => id | None => "sc" +:+ pretty n end in
  sc ← match based_on with
       | None => mret (Scenario_init id name doc)
       | Some b =>
           base ← get_scen b;
           mret (derive id name doc base)
       end;
  put_scen id sc;;
  mret sc.

Definition add_REF_scen (name doc : string) : Py CaseStudy Scenario :=
  add_scen (Some "REF") name doc None false.

(** ** Sweeps: [CaseStudy.add_scens] *)

(** [[f x for x in l]] *)
Fixpoint map_py {S A B} (f : A → Py S B) (l : list A) : Py S (list B) :=
  match l with
  | [] => mret []
  | x :: l' => y ← f x; ys ← map_py f l'; mret (y :: ys)
  end.

Definition float_of_nat (n : nat) : float :=
  of_uint63 (Uint63.of_Z (Z.of_nat n)).

(** [np.linspace(0, 1, num)]: [num] evenly spaced points, the last one set
    to the end point. *)
Definition linspace01 (num : nat) : list float :=
  match num with
  | 0 => []
  | 1 => [0%float]
  | S m =>
      let step := (1 / float_of_nat m)%float in
      (((λ i, float_of_nat i * step + 0)%float <$> seq 0 m) ++ [1%float])%list
  end.

(** [pd.MultiIndex.from_product]: the cartesian product of the value lists,
    in the order of the axes, the first axis varying slowest. *)
Fixpoint from_product (value_lists : list (list Value)) : list (list Value) :=
  match value_lists with
  | [] => [[]]
  | l :: ls => x ← l; (x ::.) <$> from_product ls
  end.

(** [sc.params.<name> = value] *)
Definition setattr_param (name : string) (value : Value) (sc : Scenario)
  : Scenario :=
  set_params (<[name := value]> (params sc)) sc.

(** Lines 303 and 304: a string value names an entity of the scenario and
    stands for that entity's value. *)
Definition resolve_value (value : Value) : Py Scenario Value :=
  match value with
  | VStr s => λ sc, (get_entity s sc, sc)
  | _ => mret value
  end.

(** Lines 306 to 313: a variable gets both bounds, anything else is a
    parameter. *)
Definition route_value (ent_name : string) (value : Value) : Py Scenario unit :=
  _meta ← gets vars_meta;
  match _meta !! ent_name with
  | Some m =>
      modify (set_vars_meta
                (<[ent_name := <["ub" := value]> (<["lb" := value]> m)]> _meta))
  | None => modify (update_params ent_name value)
  end.

(** The body of the inner loop of [add_scens] (lines 303 to 313), run on the
    derived scenario for one entry [(ent_name, value)] of a column. *)
Definition apply_entity_value (ent_name : string) (value : Value)
  : Py Scenario unit :=
  value ← resolve_value value;
  route_value ent_name value.

Section sweep.
(** Python's [str] of a float, as it appears in scenario names and docs. *)
Variable str_float : float → string.

Definition py_str (v : Value) : string :=
  match v with
  | VInt z => pretty z
  | VFloat f => str_float f
  | VStr s => s
  end.

(** Lines 287 to 292: the table [scen_df], one column per point of the
    product, named by the short names joined with the values. *)
Definition build_scen_df (axes : list Axis)
  : list (string * list (string * Value)) :=
  let names_long := (λ a : Axis, a.1.1) <$> axes in
  let names_short := (λ a : Axis, a.1.2) <$> axes in
  let value_lists := (λ a : Axis, a.2) <$> axes in
  (λ row,
     (String.concat "_" (zip_with (λ s v, s +:+ py_str v) names_short row),
      zip names_long row)) <$> from_product value_lists.

(** Lines 294 to 296: the doc of the scenario made from a column. *)
Definition long_doc (ser : list (string * Value)) : string :=
  String.concat "; " ((λ x, x.1 +:+ "=" +:+ py_str x.2) <$> ser).

(** Lines 294 to 313: one column of [scen_df] becomes one scenario. *)
Definition add_scens_column (based_on : string)
    (col : string * list (string * Value)) : Py CaseStudy unit :=
  let sc_name := col.1 in
  let ser := col.2 in
  n ← gets (λ cs, length (scens_dic cs));
  sc ← add_scen (Some ("sc" +:+ pretty n)) sc_name (long_doc ser)
                (Some based_on) false;
  on_scen (sc_id sc) sc
    (modify (update_params "timelog_params_" (VInt 0));;
     for_each ser (λ x, apply_entity_value x.1 x.2)).

(** Lines 276 to 283: the axes swept over.  Line 280 builds a
    [RuntimeError] and drops it, so nothing is raised there. *)
Definition effective_scen_vars (scen_vars : option (list Axis))
    (nParetoPoints : Z) : option (list Axis) :=
  let scen_vars :=
    match scen_vars with
    | None => if bool_decide (0 < nParetoPoints)%Z then Some [] else None
    | Some l => Some l
    end in
  if bool_decide (0 < nParetoPoints)%Z then
    (λ l : list Axis,
       (l ++ [("k_PTO_alpha_", "a",
               VFloat <$> linspace01 (Z.to_nat nParetoPoints))])%list)
      <$> scen_vars
  else scen_vars.

(** [CaseStudy.add_scens].  Line 287 transposes the axes with [zip] and
    unpacks three names, which fails on [None] and on the empty list; the
    table of lines 288 and 289 cannot be made when two axes carry the same
    long name, since [reset_index] does not insert a column label twice. *)
Definition add_scens (scen_vars : option (list Axis)) (nParetoPoints : Z)
    (del_REF : bool) (based_on : string) : Py CaseStudy unit :=
  let scen_vars := effective_scen_vars scen_vars nParetoPoints in
  modify (set_scen_vars scen_vars);;
  axes ← match scen_vars with
         | None => raise TypeError          (* zip of a None argument list *)
         | Some [] => raise ValueError      (* three names unpacked from nothing *)
         | Some axes => mret axes
         end;
  (if bool_decide (NoDup ((λ a : Axis, a.1.1) <$> axes)) then mret tt
   else raise ValueError);;
  let df := build_scen_df axes in
  modify (set_scen_df df);;
  for_each df (add_scens_column based_on);;
  (if del_REF then del_scen based_on else mret tt).
End sweep.

(** ** Pareto normalisation *)

(** [np.array(l).mean()] on a short list of floats: the sum from left to
    right over the count. *)
Definition np_mean (l : list float) : float :=
  match l with
  | [] => nan
  | x :: l' => (foldl PrimFloat.add x l' / float_of_nat (length l))%float
  end.

(** [getattr(sc.res, name)] *)
Definition res_attr (name : string) : Py Scenario float := λ sc,
  match res sc with
  | None => (Raise (AttributeError "res"), sc)
  | Some r =>
      match r !! name with
      | Some f => (Ok f, sc)
      | None => (Raise (AttributeError name), sc)
      end
  end.

(** One round of the loop of lines 402 to 409; [acc] holds [nC] and [nCE]. *)
Definition pareto_probe (model_func : ModelFunc) (adjust_factor : float)
    (basis_scen_id : string) (i : Z) (acc : list float * list float)
  : Py CaseStudy (list float * list float) :=
  sc ← add_scen (Some (pretty i)) "pareto_improver" "" (Some basis_scen_id) false;
  acc ← on_scen (pretty i) sc
    (modify (setattr_param "k_PTO_alpha_" (VInt i));;
     modify (set_model model_func);;
     optimize;;
     c ← res_attr "C_TOT_";
     let nC := (acc.1 ++ [(c * adjust_factor)%float])%list in
     ce ← res_attr "CE_TOT_";
     let nCE := (acc.2 ++ [ce])%list in
     mret (nC, nCE));
  del_scen (pretty i);;
  mret acc.

(** Lines 411 to 413, on one scenario. *)
Definition set_norm_factors (nC nCE : list float) (sc : Scenario) : Scenario :=
  setattr_param "k_PTO_CE_" (VFloat (1000 / np_mean nCE))
    (setattr_param "k_PTO_C_" (VFloat (1000 / np_mean nC)) sc).

Definition improve_pareto_norm_factors (model_func : ModelFunc)
    (adjust_factor : float) (basis_scen_id : string) : Py CaseStudy unit :=
  acc ← pareto_probe model_func adjust_factor basis_scen_id 0 ([], []);
  acc ← pareto_probe model_func adjust_factor basis_scen_id 1 acc;
  modify (λ cs,
    set_scens (prod_map id (set_norm_factors acc.1 acc.2) <$> scens cs) cs).

(** ** Batch operations and reporting *)

(** [CaseStudy.set_model(model_func, scens=...)], the scenarios given by
    their ids; [None] is every registered scenario. *)
Definition CaseStudy_set_model (model_func : ModelFunc)
    (scens_arg : option (list string)) : Py CaseStudy unit :=
  ids ← gets (λ cs, default (scens_ids cs) scens_arg);
  for_each ids (λ k, sc ← get_scen k; on_scen k sc (modify (set_model model_func))).

(** [CaseStudy.optimize(scens=...)], the scenarios given by their ids and
    solved in order; the summary it prints is left out. *)
Definition CaseStudy_optimize (scens_arg : option (list string))
  : Py CaseStudy unit :=
  ids ← gets (λ cs, default (scens_ids cs) scens_arg);
  for_each ids (λ k, sc ← get_scen k; on_scen k sc optimize).

(** [CaseStudy.import_scens(other_cs, exclude, include)]: every selected
    scenario of the other case study is bound to its id here, whether the
    id is taken or not. *)
Definition import_scens (other_cs : CaseStudy)
    (exclude include : option (list string)) : Py CaseStudy unit :=
  let scen_dic := scens other_cs in
  let scens_to_import := scen_dic.*1 in
  let scens_to_import :=
    match exclude with
    | Some ex => filter (λ n, n ∉ ex) scens_to_import
    | None => scens_to_import
    end in
  let scens_to_import :=
    match include with
    | Some inc => filter (λ n, n ∈ inc) scens_to_import
    | None => scens_to_import
    end in
  for_each scen_dic (λ p,
    if bool_decide (p.1 ∈ scens_to_import) then put_scen p.1 p.2 else mret tt).



(** ** Predicates and sample inputs used by the statements *)

(** What [add_scen] stores: a fresh scenario, or the copy of the base. *)
Definition made_by_add_scen (cs : CaseStudy) (id name doc : string)
    (based_on : option string) (sc : Scenario) : Prop :=
  match based_on with
  | None => sc = Scenario_init id name doc
  | Some b => ∃ base, getattr b (scens cs) = Some base ∧ sc = derive id name doc base
  end.

Definition cs_REF : CaseStudy :=
  (add_REF_scen "REF" "Reference scenario" (CaseStudy_init default_obj_vars)).2.

Definition sc_demo : Scenario :=
  mkScenario "sc1" "demo" ""
    {[ "c_GRID_RTP_T" := VFloat 0.25; "c_GRID_T" := VFloat 0.5 ]}
    {[ "P_PV_CAPx_" := {[ "lb" := VInt 0; "ub" := VInt 100 ]} ]}
    None None None.


(** A model builder for the examples: infeasible when the parameter
    [infeasible] is set, and otherwise optimal, with total costs 100 and
    emissions 50 at weighting 0, and 300 and 20 at any other weighting. *)
Definition demo_model : ModelFunc := λ p _,
  match p !! "infeasible" with
  | Some _ => (3%Z, ∅)
  | None =>
      match p !! "k_PTO_alpha_" with
      | Some (VInt 0) => (2%Z, {[ "C_TOT_" := 100%float; "CE_TOT_" := 50%float ]})
      | _ => (2%Z, {[ "C_TOT_" := 300%float; "CE_TOT_" := 20%float ]})
      end
  end.


(** REF solved to optimality, and sc1, derived from it, solved and found
    infeasible. *)
Definition cs_solved : CaseStudy :=
  let run (m : Py CaseStudy unit) (cs : CaseStudy) := (m cs).2 in
  run (CaseStudy_optimize None)
    (run (CaseStudy_set_model demo_model None)
       (run (add_scens (λ _, "") (Some [("infeasible", "i", [VInt 1])])
                       0 false "REF")
          cs_REF)).

(** The probe of round [i] of the normalisation, as it stands after lines
    403 to 406: the copy of the base with the weighting set, its model built
    and solved. *)
Definition probe_scen (model_func : ModelFunc) (i : Z) (base : Scenario)
  : Scenario :=
  (optimize
     (set_model model_func
        (setattr_param "k_PTO_alpha_" (VInt i)
           (derive (pretty i) "pareto_improver" "" base)))).2.

(** Lines 407 and 408 on the solved probe: the two readings appended to
    [nC] and [nCE]. *)
Definition probe_readings (adjust_factor : float) (acc : list float * list float)
    (sc : Scenario) : result (list float * list float) :=
  match (res_attr "C_TOT_" sc).1 with
  | Raise e => Raise e
  | Ok c =>
      match (res_attr "CE_TOT_" sc).1 with
      | Raise e => Raise e
      | Ok ce => Ok ((acc.1 ++ [(c * adjust_factor)%float])%list, (acc.2 ++ [ce])%list)
      end
  end.

(** A registry in which a scenario of the user is stored under the id 0. *)
Definition cs_zero : CaseStudy :=
  (add_scen (Some "0") "mine" "" (Some "REF") false cs_REF).2.

(** The case study left by the normalisation run on REF alone. *)
Definition cs_normalised : CaseStudy :=
  (improve_pareto_norm_factors demo_model 1 "REF" cs_REF).2.

(** The last solve of [sc] ended with status OPTIMAL or SUBOPTIMAL. *)
Definition last_solve_succeeded (sc : Scenario) : Prop :=
  ∃ code, solve_status sc = Some code ∧
          (GRB_OPT_STATUS !! code = Some "OPTIMAL"
           ∨ GRB_OPT_STATUS !! code = Some "SUBOPTIMAL").

(** The case studies a program can build with the methods of [CaseStudy]
    modelled here, starting from a new one; a method that raises leaves the
    case study in the state it had reached. *)
Inductive reachable : CaseStudy → Prop :=
  | reach_init obj_vars :
      reachable (CaseStudy_init obj_vars)
  | reach_add_scen cs id name doc based_on based_on_last :
      reachable cs →
      reachable (add_scen id name doc based_on based_on_last cs).2
  | reach_add_scens str_float cs scen_vars nParetoPoints del_REF based_on :
      reachable cs →
      reachable (add_scens str_float scen_vars nParetoPoints del_REF based_on cs).2
  | reach_improve cs model_func adjust_factor basis_scen_id :
      reachable cs →
      reachable (improve_pareto_norm_factors model_func adjust_factor
                   basis_scen_id cs).2
  | reach_set_model cs model_func scens_arg :
      reachable cs →
      reachable (CaseStudy_set_model model_func scens_arg cs).2
  | reach_optimize cs scens_arg :
      reachable cs →
      reachable (CaseStudy_optimize scens_arg cs).2
  | reach_import cs other_cs exclude include :
      reachable cs → reachable other_cs →
      reachable (import_scens other_cs exclude include cs).2
  | reach_del_scen cs k :
      reachable cs →
      reachable (del_scen k cs).2.

(** A first sweep that deletes its base REF, leaving sc1 and sc2. *)
Definition cs_swept : CaseStudy :=
  (add_scens (λ _, "") (Some [("P_PV_CAPx_", "p", [VInt 0; VInt 10])])
             0 true "REF" cs_REF).2.

(** The ids under which [count] columns are stored, from a registry of
    [len] scenarios on. *)
Definition sweep_ids (len count : nat) : list string :=
  (λ j, "sc" +:+ pretty (len + j)) <$> seq 0 count.

(** A method keeps [I] on its object, raising or not, and returns values
    that satisfy [Q]. *)
Definition keeps {S A} (I : S → Prop) (Q : A → Prop) (m : Py S A) : Prop :=
  ∀ s, I s → I (m s).2 ∧ ∀ a, (m s).1 = Ok a → Q a.

(** The results of a scenario are there exactly when its last solve
    succeeded. *)
Definition consistent (sc : Scenario) : Prop :=
  is_Some (res sc) ↔ last_solve_succeeded sc.

Definition registry_consistent (cs : CaseStudy) : Prop :=
  Forall (λ p, consistent p.2) (scens cs).

(** The ids of the registry are distinct. *)
Definition unique_ids (cs : CaseStudy) : Prop := NoDup (scens_ids cs).

(** ** Further methods of [CaseStudy] *)

(** [CaseStudy.any_scen]: [self.scens_list[0]]. *)
Definition any_scen : Py CaseStudy Scenario := λ cs,
  match scens_list cs with
  | sc :: _ => (Ok sc, cs)
  | [] => (Raise IndexError, cs)
  end.

(** The id [add_scen] stores under: the one given, or the running number. *)
Definition add_scen_id (id : option string) (cs : CaseStudy) : string :=
  match id with
  | Some id => id
  | None => "sc" +:+ pretty (length (scens_list cs))
  end.

(** A registry numbered consecutively: REF, then sc1, sc2, ... in order. *)
Definition numbered (cs : CaseStudy) : Prop :=
  scens_ids cs = "REF" :: sweep_ids 1 (length (scens cs) - 1).

(** The scenario a column of a sweep produces from the copy of [base]
    stored under [id], and whether its entries could all be applied (lines
    297 to 313). *)
Definition column_scen (str_float : float → string) (base : Scenario)
    (id : string) (col : string * list (string * Value))
  : result unit * Scenario :=
  for_each col.2 (λ x, apply_entity_value x.1 x.2)
    (update_params "timelog_params_" (VInt 0)
       (derive id col.1 (long_doc str_float col.2) base)).

(** The scenarios the loop of lines 294 to 313 stores, column after column,
    from a registry of [len] scenarios on, up to and including the first
    column that raises. *)
Fixpoint run_columns (str_float : float → string) (base : Scenario)
    (len : nat) (cols : list (string * list (string * Value)))
  : result unit * list (string * Scenario) :=
  match cols with
  | [] => (Ok tt, [])
  | col :: cols' =>
      let id := "sc" +:+ pretty len in
      match column_scen str_float base id col with
      | (Ok _, sc) =>
          let '(r, l) := run_columns str_float base (S len) cols' in
          (r, (id, sc) :: l)
      | (Raise e, sc) => (Raise e, [(id, sc)])
      end
  end.

(** The number of points of the product of the axes. *)
Definition sweep_count (axes : list Axis) : nat :=
  foldr (λ (ax : Axis) n, length ax.2 * n) 1 axes.

(** [sc'] is [sc] but for its parameters and variable metadata. *)
Definition same_identity (sc sc' : Scenario) : Prop :=
  sc_id sc' = sc_id sc ∧ sc_name sc' = sc_name sc ∧ sc_doc sc' = sc_doc sc ∧
  mdl sc' = mdl sc ∧ res sc' = res sc ∧ solve_status sc' = solve_status sc.

(** A sweep that succeeds on REF, and the state a sweep leaves when its
    second column names an entity that does not exist. *)
Definition cs_two : CaseStudy :=
  (add_scens (λ _, "") (Some [("P_PV_CAPx_", "p", [VInt 0; VInt 10])])
             0 false "REF" cs_REF).2.

Definition cs_half : CaseStudy :=
  (add_scens (λ _, "") (Some [("c_GRID_T", "t", [VInt 1; VStr "c_GRID_X_T"])])
             0 false "REF" cs_REF).2.



(** The state the normalisation leaves when its first probe, based on the
    infeasible sc1, has no results to read. *)
Definition cs_leak : CaseStudy :=
  (improve_pareto_norm_factors demo_model 1 "sc1" cs_solved).2.

(** The ids [import_scens] imports: those of the other case study that pass
    both filters (lines 491 to 498). *)
Definition import_selected (other_cs : CaseStudy)
    (exclude include : option (list string)) : list string :=
  let scens_to_import := (scens other_cs).*1 in
  let scens_to_import :=
    match exclude with
    | Some ex => filter (λ n, n ∉ ex) scens_to_import
    | None => scens_to_import
    end in
  match include with
  | Some inc => filter (λ n, n ∈ inc) scens_to_import
  | None => scens_to_import
  end.

(** Every registered scenario carries the id it is registered under. *)
Definition keyed_by_id (cs : CaseStudy) : Prop :=
  Forall (λ p : string * Scenario, sc_id p.2 = p.1) (scens cs).

(** A second case study to import from and one to import into. *)
Definition cs_other : CaseStudy := cs_solved.

(** [CaseStudy.improve_pareto_and_set_model(model_func)], with the defaults
    of the two methods it calls. *)
Definition improve_pareto_and_set_model (model_func : ModelFunc)
  : Py CaseStudy unit :=
  improve_pareto_norm_factors model_func 1 "REF";;
  CaseStudy_set_model model_func None.

(** The loop of [CaseStudy.optimize] and [CaseStudy.set_model] over the
    scenarios registered under [ids], [m] being the scenario method. *)
Definition batch (m : Py Scenario unit) (ids : list string) : Py CaseStudy unit :=
  for_each ids (λ k, sc ← get_scen k; on_scen k sc m).

(** REF and two scenarios swept from it, each with its model built. *)
Definition cs_modelled : CaseStudy :=
  (CaseStudy_set_model demo_model None cs_two).2.

(** * Properties *)

(** ** Attribute stores *)

Section attrs_facts.
Context {A : Type}.
Implicit Types (d : list (string * A)) (k : string) (v : A).

Lemma getattr_None k d : getattr k d = None ↔ k ∉ d.*1.
Proof.
  induction d as [|[k' v'] d IH]; simpl.
  - split; [intros _; apply not_elem_of_nil | done].
  - case_decide as Hk; subst.
    + split; [done | intros []; left].
    + rewrite IH, not_elem_of_cons. tauto.
Qed.

Lemma getattr_is_Some k d : is_Some (getattr k d) ↔ k ∈ d.*1.
Proof.
  rewrite <- not_eq_None_Some, getattr_None.
  split; [apply dec_stable | tauto].
Qed.

Lemma getattr_elem_of k v d : getattr k d = Some v → (k, v) ∈ d.
Proof.
  induction d as [|[k' v'] d IH]; simpl; [done|].
  case_decide; subst.
  - intros [= ->]. left.
  - intros. right. auto.
Qed.

Lemma elem_of_getattr k v d : NoDup d.*1 → (k, v) ∈ d → getattr k d = Some v.
Proof.
  induction d as [|[k' v'] d IH]; simpl.
  - intros _ H. by apply elem_of_nil in H.
  - rewrite NoDup_cons. intros [Hk Hd] [[= -> ->]|Hin]%elem_of_cons.
    + by rewrite decide_True.
    + rewrite decide_False; [auto|].
      intros ->. apply Hk. apply list_elem_of_fmap. by exists (k', v).
Qed.

Lemma getattr_setattr_eq k v d : getattr k (setattr k v d) = Some v.
Proof.
  induction d as [|[k' v'] d IH]; simpl.
  - by rewrite decide_True.
  - case_decide; simpl; [by rewrite decide_True | by rewrite decide_False].
Qed.

Lemma getattr_setattr_ne k k' v d :
  k ≠ k' → getattr k' (setattr k v d) = getattr k' d.
Proof.
  intros Hne. induction d as [|[k0 v0] d IH]; simpl.
  - by rewrite decide_False.
  - case_decide; subst; simpl.
    + by rewrite !decide_False.
    + case_decide; [done | apply IH].
Qed.

Lemma setattr_keys_in k v d : k ∈ d.*1 → (setattr k v d).*1 = d.*1.
Proof.
  induction d as [|[k' v'] d IH]; simpl.
  - intros H. by apply elem_of_nil in H.
  - case_decide; subst; simpl; [done|].
    intros [?|?]%elem_of_cons; [done|]. f_equal. auto.
Qed.

Lemma setattr_keys_notin k v d : k ∉ d.*1 → setattr k v d = (d ++ [(k, v)])%list.
Proof.
  induction d as [|[k' v'] d IH]; simpl; [done|].
  rewrite not_elem_of_cons. intros [? ?].
  rewrite decide_False by done. f_equal. auto.
Qed.

Lemma setattr_setattr k v v' d : setattr k v' (setattr k v d) = setattr k v' d.
Proof.
  induction d as [|[k0 v0] d IH]; simpl.
  - by rewrite decide_True.
  - case_decide; simpl; [by rewrite decide_True|].
    rewrite decide_False by done. by f_equal.
Qed.

Lemma delattr_setattr k v d : delattr k (setattr k v d) = delattr k d.
Proof.
  unfold delattr. induction d as [|[k0 v0] d IH]; simpl.
  - rewrite filter_cons_False; [done | simpl; tauto].
  - case_decide; subst; simpl.
    + rewrite !filter_cons_False by (simpl; tauto). done.
    + rewrite !filter_cons_True by (simpl; congruence). by f_equal.
Qed.

Lemma delattr_keys k d : (delattr k d).*1 = filter (λ k', k' ≠ k) d.*1.
Proof.
  unfold delattr. induction d as [|[k0 v0] d IH]; simpl; [done|].
  destruct (decide (k0 = k)); subst.
  - rewrite !filter_cons_False by (simpl; tauto). done.
  - rewrite !filter_cons_True by done. simpl. by f_equal.
Qed.

Lemma getattr_delattr_eq k d : getattr k (delattr k d) = None.
Proof.
  apply getattr_None. rewrite delattr_keys, list_elem_of_filter. tauto.
Qed.

Lemma getattr_delattr_ne k k' d :
  k ≠ k' → getattr k' (delattr k d) = getattr k' d.
Proof.
  intros Hne. unfold delattr. induction d as [|[k0 v0] d IH]; simpl; [done|].
  destruct (decide (k0 = k)); subst.
  - rewrite filter_cons_False by (simpl; tauto). by rewrite decide_False.
  - rewrite filter_cons_True by done. simpl. by rewrite IH.
Qed.

Lemma setattr_elem_of k v d p :
  p ∈ setattr k v d → p = (k, v) ∨ p ∈ d.
Proof.
  induction d as [|[k0 v0] d IH]; simpl.
  - intros ?%list_elem_of_singleton. by left.
  - case_decide; subst; rewrite !elem_of_cons; intros [?|?]; auto.
    destruct IH as [?|?]; auto.
Qed.

Lemma delattr_elem_of k d p : p ∈ delattr k d → p ∈ d.
Proof. unfold delattr. rewrite list_elem_of_filter. tauto. Qed.

Lemma setattr_NoDup k v d : NoDup d.*1 → NoDup (setattr k v d).*1.
Proof.
  intros Hd. destruct (decide (k ∈ d.*1)) as [Hin|Hout].
  - by rewrite setattr_keys_in.
  - rewrite setattr_keys_notin, fmap_app by done. simpl.
    apply NoDup_app. split_and!; [done | | apply NoDup_singleton].
    intros x Hx ->%list_elem_of_singleton. done.
Qed.

Lemma delattr_NoDup k d : NoDup d.*1 → NoDup (delattr k d).*1.
Proof. rewrite delattr_keys. apply NoDup_filter. Qed.
End attrs_facts.

(** ** The monad *)

Ltac py_unfold :=
  unfold mbind, mret, Py_bind, Py_ret, raise, gets, modify, lift in *.

Ltac py_simpl := py_unfold; simpl in *.

Lemma for_each_app {S A} (l1 l2 : list A) (body : A → Py S unit) s :
  for_each (l1 ++ l2)%list body s =
  match for_each l1 body s with
  | (Ok _, s') => for_each l2 body s'
  | (Raise e, s') => (Raise e, s')
  end.
Proof.
  revert s. induction l1 as [|x l1 IH]; intros s; simpl; [done|].
  py_unfold. destruct (body x s) as [[[]|e] s']; [apply IH | done].
Qed.

(** ** The reference scenario *)

(** C10.  In a case study whose registry is not empty, [REF_scen] returns the
    scenario stored under the id REF when there is one, and otherwise the
    first scenario in insertion order; it does not raise, and it leaves the
    case study as it was. *)
Theorem REF_scen_returns cs :
  scens_list cs ≠ [] →
  ∃ sc, REF_scen cs = (Ok sc, cs) ∧
        ("REF" ∈ scens_ids cs → getattr "REF" (scens cs) = Some sc) ∧
        ("REF" ∉ scens_ids cs → head (scens_list cs) = Some sc).
Proof.
  intros Hne. unfold REF_scen.
  destruct (getattr "REF" (scens cs)) as [sc|] eqn:HREF.
  - exists sc. split_and!; [done | done |].
    intros Hout. apply (proj2 (getattr_None _ _)) in Hout.
    unfold scens_dic in Hout. congruence.
  - destruct (scens_list cs) as [|sc l] eqn:Hl; [done|].
    exists sc. split_and!; [done | | done].
    intros Hin. apply (proj2 (getattr_is_Some _ _)) in Hin.
    unfold scens_dic in Hin. rewrite HREF in Hin. by destruct Hin.
Qed.

(** ** Adding one scenario *)

Lemma add_scen_scratch cs id name doc :
  add_scen (Some id) name doc None false cs =
  (Ok (Scenario_init id name doc),
   set_scens (setattr id (Scenario_init id name doc) (scens cs)) cs).
Proof. reflexivity. Qed.

Lemma add_scen_based_on cs id name doc b base :
  getattr b (scens cs) = Some base →
  add_scen (Some id) name doc (Some b) false cs =
  (Ok (derive id name doc base),
   set_scens (setattr id (derive id name doc base) (scens cs)) cs).
Proof.
  intros Hb. unfold add_scen, get_scen, put_scen. py_simpl. by rewrite Hb.
Qed.

Lemma add_scen_no_base cs id name doc b :
  getattr b (scens cs) = None →
  add_scen (Some id) name doc (Some b) false cs = (Raise (AttributeError b), cs).
Proof.
  intros Hb. unfold add_scen, get_scen, put_scen. py_simpl. by rewrite Hb.
Qed.

(** C3, as the code has it.  Adding a scenario under an id that is already
    registered does not fail: the new scenario is bound to that id in place
    of the old one, the ids of the registry and their order stay as they
    were, and every other id keeps its scenario. *)
Theorem add_scen_present_id_rebinds cs id name doc based_on sc :
  id ∈ scens_ids cs →
  made_by_add_scen cs id name doc based_on sc →
  ∃ cs', add_scen (Some id) name doc based_on false cs = (Ok sc, cs') ∧
         scens_ids cs' = scens_ids cs ∧
         getattr id (scens cs') = Some sc ∧
         ∀ k, k ≠ id → getattr k (scens cs') = getattr k (scens cs).
Proof.
  intros Hid Hsc.
  exists (set_scens (setattr id sc (scens cs)) cs). split_and!.
  - destruct based_on as [b|]; simpl in Hsc.
    + destruct Hsc as (base & Hb & ->). by apply add_scen_based_on.
    + subst sc. apply add_scen_scratch.
  - unfold scens_ids, scens_dic. simpl. by apply setattr_keys_in.
  - simpl. apply getattr_setattr_eq.
  - intros k Hk. simpl. by apply getattr_setattr_ne.
Qed.

Lemma add_scen_present_id_rebinds_witness :
  "REF" ∈ scens_ids cs_REF ∧
  ∃ cs', add_scen (Some "REF") "again" "" (Some "REF") false cs_REF
         = (Ok (derive "REF" "again" "" (Scenario_init "REF" "REF" "Reference scenario")), cs') ∧
         scens_ids cs' = scens_ids cs_REF.
Proof.
  assert (Hin : "REF" ∈ scens_ids cs_REF) by (vm_compute; left).
  split; [exact Hin|].
  destruct (add_scen_present_id_rebinds cs_REF "REF" "again" "" (Some "REF")
              (derive "REF" "again" "" (Scenario_init "REF" "REF" "Reference scenario"))
              Hin) as (cs' & H1 & H2 & _).
  - simpl. eexists. split; reflexivity.
  - exists cs'. by split.
Defined.

(** C3 as stated fails: the id REF is registered, yet adding a scenario
    under REF returns normally and the registry is not what it was. *)
Lemma add_scen_duplicate_id_not_rejected :
  "REF" ∈ scens_ids cs_REF ∧
  ∃ sc cs', add_scen (Some "REF") "again" "" (Some "REF") false cs_REF = (Ok sc, cs') ∧
            scens cs' ≠ scens cs_REF.
Proof.
  split; [vm_compute; left|].
  eexists _, _. split.
  - apply add_scen_based_on. reflexivity.
  - vm_compute. intros [=].
Qed.

(** ** Sweeps without axes *)

(** C4.  A sweep with no axis at all (an empty list, or no list, and no
    Pareto points asked for) raises before it creates a scenario: the
    unpacking of the transposed axis list fails, with [ValueError] on the
    empty list and [TypeError] on [None], and the registry is as it was. *)
Theorem add_scens_zero_axes_raises (str_float : float → string) cs
    (nParetoPoints : Z) del_REF based_on :
  (nParetoPoints ≤ 0)%Z →
  (∃ cs', add_scens str_float (Some []) nParetoPoints del_REF based_on cs
          = (Raise ValueError, cs') ∧ scens cs' = scens cs) ∧
  (∃ cs', add_scens str_float None nParetoPoints del_REF based_on cs
          = (Raise TypeError, cs') ∧ scens cs' = scens cs).
Proof.
  intros Hn. unfold add_scens, effective_scen_vars.
  rewrite !bool_decide_eq_false_2 by lia.
  split; eexists; (split; [reflexivity | done]).
Qed.

Lemma add_scens_zero_axes_raises_witness :
  (∃ cs', add_scens (λ _, "") (Some []) 0 false "REF" cs_REF
          = (Raise ValueError, cs') ∧ scens cs' = scens cs_REF) ∧
  (∃ cs', add_scens (λ _, "") None 0 false "REF" cs_REF
          = (Raise TypeError, cs') ∧ scens cs' = scens cs_REF).
Proof.
  apply (add_scens_zero_axes_raises (λ _, "") cs_REF 0 false "REF"). lia.
Defined.

(** ** Applying one entry of a sweep column *)

Lemma resolve_value_literal value sc :
  (∀ s, value ≠ VStr s) → resolve_value value sc = (Ok value, sc).
Proof. intros Hv. destruct value; [done | done | by destruct (Hv s)]. Qed.

Lemma resolve_value_state value sc r sc' :
  resolve_value value sc = (r, sc') → sc' = sc.
Proof. destruct value; simpl; py_simpl; congruence. Qed.

Lemma route_value_variable ent_name value sc m :
  vars_meta sc !! ent_name = Some m →
  route_value ent_name value sc =
  (Ok tt, set_vars_meta (<[ent_name := <["ub" := value]> (<["lb" := value]> m)]>
                           (vars_meta sc)) sc).
Proof. intros Hm. unfold route_value. py_simpl. by rewrite Hm. Qed.

Lemma route_value_parameter ent_name value sc :
  vars_meta sc !! ent_name = None →
  route_value ent_name value sc = (Ok tt, update_params ent_name value sc).
Proof. intros Hm. unfold route_value. py_simpl. by rewrite Hm. Qed.

(** C2.  Applying an entry [(ent_name, value)] to the derived scenario,
    where [v] is the value applied (the entry's value, read through the
    entity it names when it is a string): if [ent_name] is registered as a
    variable, afterwards its lower and upper bound are both [v] and the
    parameters are untouched; otherwise [ent_name] is a parameter and
    afterwards holds [v], the variables untouched. *)
Theorem apply_entity_value_routes ent_name value v sc :
  resolve_value value sc = (Ok v, sc) →
  ∃ sc', apply_entity_value ent_name value sc = (Ok tt, sc') ∧
    (ent_name ∈ dom (vars_meta sc) →
       (∃ m, vars_meta sc' !! ent_name = Some m ∧
             m !! "lb" = Some v ∧ m !! "ub" = Some v) ∧
       params sc' = params sc) ∧
    (ent_name ∉ dom (vars_meta sc) →
       params sc' !! ent_name = Some v ∧ vars_meta sc' = vars_meta sc).
Proof.
  intros Hv. unfold apply_entity_value. py_unfold. rewrite Hv.
  destruct (vars_meta sc !! ent_name) as [m|] eqn:Hm.
  - rewrite (route_value_variable _ _ _ m Hm). eexists. split; [done|]. split.
    + intros _. split; [|done]. eexists. simpl. rewrite lookup_insert_eq.
      split; [done|]. split; [|by rewrite lookup_insert_eq].
      rewrite lookup_insert_ne by done. by rewrite lookup_insert_eq.
    + intros Hout. apply not_elem_of_dom in Hout. congruence.
  - rewrite (route_value_parameter _ _ _ Hm). eexists. split; [done|]. split.
    + intros Hin. apply elem_of_dom in Hin. rewrite Hm in Hin. by destruct Hin.
    + intros _. simpl. by rewrite lookup_insert_eq.
Qed.

Lemma apply_entity_value_routes_witness :
  ∃ sc', apply_entity_value "P_PV_CAPx_" (VInt 10) sc_demo = (Ok tt, sc') ∧
    ("P_PV_CAPx_" ∈ dom (vars_meta sc_demo) →
       (∃ m, vars_meta sc' !! "P_PV_CAPx_" = Some m ∧
             m !! "lb" = Some (VInt 10) ∧ m !! "ub" = Some (VInt 10)) ∧
       params sc' = params sc_demo) ∧
    ("P_PV_CAPx_" ∉ dom (vars_meta sc_demo) →
       params sc' !! "P_PV_CAPx_" = Some (VInt 10) ∧
       vars_meta sc' = vars_meta sc_demo).
Proof.
  exact (apply_entity_value_routes "P_PV_CAPx_" (VInt 10) (VInt 10) sc_demo eq_refl).
Defined.

Example apply_entity_value_variable :
  (vars_meta (apply_entity_value "P_PV_CAPx_" (VInt 10) sc_demo).2
     !! "P_PV_CAPx_") = Some {[ "lb" := VInt 10; "ub" := VInt 10 ]}.
Proof. vm_compute. reflexivity. Qed.

Example apply_entity_value_parameter :
  params (apply_entity_value "c_GRID_T" (VStr "c_GRID_RTP_T") sc_demo).2
    !! "c_GRID_T" = Some (VFloat 0.25).
Proof. reflexivity. Qed.

(** ** Running a sweep *)

Section sweep_facts.
Variable str_float : float → string.

(** The scenario a column starts from, before its entries are applied. *)
Lemma add_scens_column_run based_on col cs base :
  getattr based_on (scens cs) = Some base →
  let id := "sc" +:+ pretty (length (scens cs)) in
  let sc0 := update_params "timelog_params_" (VInt 0)
               (derive id col.1 (long_doc str_float col.2) base) in
  add_scens_column str_float based_on col cs =
  let '(r, sc') := for_each col.2 (λ x, apply_entity_value x.1 x.2) sc0 in
  (r, set_scens (setattr id sc' (scens cs)) cs).
Proof.
  intros Hb id sc0. unfold add_scens_column.
  unfold mbind at 1, Py_bind at 1, gets at 1.
  unfold mbind at 1, Py_bind at 1.
  unfold scens_dic. rewrite length_fmap || idtac.
  rewrite (add_scen_based_on cs _ _ _ _ _ Hb).
  unfold on_scen. simpl. fold id.
  unfold mbind at 1, Py_bind at 1, modify at 1. fold sc0.
  destruct (for_each _ _ sc0) as [r sc']. simpl.
  by rewrite setattr_setattr.
Qed.

Lemma add_scens_column_no_base based_on col cs :
  getattr based_on (scens cs) = None →
  add_scens_column str_float based_on col cs = (Raise (AttributeError based_on), cs).
Proof.
  intros Hb. unfold add_scens_column.
  unfold mbind at 1, Py_bind at 1, gets at 1.
  unfold mbind at 1, Py_bind at 1.
  by rewrite (add_scen_no_base cs _ _ _ _ Hb).
Qed.

Lemma add_scens_run scen_vars nParetoPoints del_REF based_on cs a axes :
  effective_scen_vars scen_vars nParetoPoints = Some (a :: axes) →
  NoDup ((λ a : Axis, a.1.1) <$> a :: axes) →
  let df := build_scen_df str_float (a :: axes) in
  add_scens str_float scen_vars nParetoPoints del_REF based_on cs =
  match for_each df (add_scens_column str_float based_on)
          (set_scen_df df (set_scen_vars (Some (a :: axes)) cs)) with
  | (Ok _, cs') => if del_REF then del_scen based_on cs' else (Ok tt, cs')
  | (Raise e, cs') => (Raise e, cs')
  end.
Proof.
  intros Heff Hnd df. unfold add_scens. rewrite Heff.
  py_unfold. cbv beta iota zeta.
  rewrite bool_decide_eq_true_2 by done. fold df.
  destruct (for_each df _ _) as [[[]|e] cs']; [|done].
  by destruct del_REF.
Qed.
End sweep_facts.

(** ** String values in a sweep *)






(** ** The Pareto table *)



Lemma map_py_res_attr_state obj_vars sc :
  (map_py res_attr obj_vars sc).2 = sc.
Proof.
  induction obj_vars as [|v vs IH]; [done|]. simpl. py_unfold.
  unfold res_attr at 1. destruct (res sc) as [r|]; [|done].
  destruct (r !! v); [|done].
  destruct (map_py res_attr vs sc) as [[row|e] sc'] eqn:E; simpl in *; congruence.
Qed.







Lemma REF_scen_returns_witness :
  ∃ sc, REF_scen cs_solved = (Ok sc, cs_solved) ∧
        ("REF" ∈ scens_ids cs_solved → getattr "REF" (scens cs_solved) = Some sc) ∧
        ("REF" ∉ scens_ids cs_solved → head (scens_list cs_solved) = Some sc).
Proof.
  apply (REF_scen_returns cs_solved). vm_compute. discriminate.
Defined.

(** ** Pareto normalisation *)

Lemma res_attr_state name sc : (res_attr name sc).2 = sc.
Proof. unfold res_attr. destruct (res sc) as [r|]; [|done]. by destruct (r !! name). Qed.

Lemma pareto_probe_run model_func adjust_factor b i acc cs base :
  getattr b (scens cs) = Some base →
  pareto_probe model_func adjust_factor b i acc cs =
  match probe_readings adjust_factor acc (probe_scen model_func i base) with
  | Ok acc' => (Ok acc', set_scens (delattr (pretty i) (scens cs)) cs)
  | Raise e =>
      (Raise e,
       set_scens (setattr (pretty i) (probe_scen model_func i base) (scens cs)) cs)
  end.
Proof.
  intros Hb. unfold pareto_probe.
  unfold mbind at 1, Py_bind at 1.
  rewrite (add_scen_based_on cs _ _ _ _ _ Hb).
  unfold mbind at 1, Py_bind at 1. unfold on_scen.
  unfold mbind at 1, Py_bind at 1, modify at 1.
  unfold mbind at 1, Py_bind at 1, modify at 1.
  unfold mbind at 1, Py_bind at 1.
  unfold probe_readings, probe_scen.
  set (sc2 := set_model _ _).
  assert (Hopt : (optimize sc2).1 = Ok tt).
  { unfold optimize, sc2. simpl. by destruct (model_func _ _). }
  destruct (optimize sc2) as [r sc3]. simpl in Hopt. subst r. cbn [snd].
  unfold mbind at 1, Py_bind at 1.
  pose proof (res_attr_state "C_TOT_" sc3) as HC.
  destruct (res_attr "C_TOT_" sc3) as [[c|e] sc4]; simpl in HC; subst sc4; cbn [fst].
  2: { simpl. by rewrite setattr_setattr. }
  unfold mbind at 1, Py_bind at 1.
  pose proof (res_attr_state "CE_TOT_" sc3) as HCE.
  destruct (res_attr "CE_TOT_" sc3) as [[ce|e] sc4]; simpl in HCE; subst sc4; cbn [fst].
  2: { simpl. by rewrite setattr_setattr. }
  unfold mret, Py_ret, del_scen. unfold mbind, Py_bind. cbn [scens set_scens].
  rewrite setattr_setattr, getattr_setattr_eq. cbn [scens set_scens].
  by rewrite delattr_setattr.
Qed.

Lemma pareto_probe_no_base model_func adjust_factor b i acc cs :
  getattr b (scens cs) = None →
  pareto_probe model_func adjust_factor b i acc cs = (Raise (AttributeError b), cs).
Proof.
  intros Hb. unfold pareto_probe. unfold mbind at 1, Py_bind at 1.
  by rewrite (add_scen_no_base cs _ _ _ _ Hb).
Qed.

Lemma pareto_probe_Ok model_func adjust_factor b i acc cs acc' cs' :
  pareto_probe model_func adjust_factor b i acc cs = (Ok acc', cs') →
  ∃ base, getattr b (scens cs) = Some base ∧
          probe_readings adjust_factor acc (probe_scen model_func i base) = Ok acc' ∧
          cs' = set_scens (delattr (pretty i) (scens cs)) cs.
Proof.
  destruct (getattr b (scens cs)) as [base|] eqn:Hb.
  - rewrite (pareto_probe_run _ _ _ _ _ _ _ Hb).
    destruct (probe_readings _ _ _) as [a|e] eqn:Hread; [|done].
    intros [= -> <-]. by exists base.
  - by rewrite (pareto_probe_no_base _ _ _ _ _ _ Hb).
Qed.

Lemma filter_all {A} (P : A → Prop) `{!∀ x, Decision (P x)} (l : list A) :
  Forall P l → filter P l = l.
Proof.
  induction 1 as [|x l Hx _ IH]; [done|].
  rewrite filter_cons_True by done. by f_equal.
Qed.

Lemma improve_pareto_norm_factors_Ok model_func adjust_factor b cs cs' :
  improve_pareto_norm_factors model_func adjust_factor b cs = (Ok tt, cs') →
  ∃ base0 base1 acc0 acc1,
    getattr b (scens cs) = Some base0 ∧
    probe_readings adjust_factor ([], []) (probe_scen model_func 0 base0) = Ok acc0 ∧
    getattr b (delattr "0" (scens cs)) = Some base1 ∧
    probe_readings adjust_factor acc0 (probe_scen model_func 1 base1) = Ok acc1 ∧
    scens cs' = prod_map id (set_norm_factors acc1.1 acc1.2)
                  <$> delattr "1" (delattr "0" (scens cs)).
Proof.
  unfold improve_pareto_norm_factors.
  unfold mbind at 1, Py_bind at 1.
  destruct (pareto_probe _ _ _ 0 _ cs) as [[acc0|e] cs0] eqn:H0; [|done].
  apply pareto_probe_Ok in H0 as (base0 & Hb0 & Hr0 & ->).
  unfold mbind at 1, Py_bind at 1.
  destruct (pareto_probe _ _ _ 1 _ _) as [[acc1|e] cs1] eqn:H1; [|done].
  apply pareto_probe_Ok in H1 as (base1 & Hb1 & Hr1 & ->).
  unfold modify. intros [= <-]. by exists base0, base1, acc0, acc1.
Qed.

Lemma set_norm_factors_params nC nCE sc :
  params (set_norm_factors nC nCE sc) !! "k_PTO_C_"
    = Some (VFloat (1000 / np_mean nC)) ∧
  params (set_norm_factors nC nCE sc) !! "k_PTO_CE_"
    = Some (VFloat (1000 / np_mean nCE)).
Proof.
  unfold set_norm_factors, setattr_param. simpl. split.
  - rewrite lookup_insert_ne by done. apply lookup_insert_eq.
  - apply lookup_insert_eq.
Qed.

(** C7, as the code has it.  When the normalisation returns, the registry
    holds the ids it held before the call other than 0 and 1, the ids under
    which the two probes are stored and then deleted: neither is registered
    afterwards, the ids are exactly those of before when neither was
    registered before, and every scenario left in the registry carries both
    factors as parameters, the same two for all. *)
Theorem improve_pareto_norm_factors_registry model_func adjust_factor
    basis_scen_id cs cs' :
  improve_pareto_norm_factors model_func adjust_factor basis_scen_id cs
    = (Ok tt, cs') →
  scens_ids cs' = filter (λ k, k ∉ ["0"; "1"]) (scens_ids cs) ∧
  ("0" ∉ scens_ids cs') ∧ ("1" ∉ scens_ids cs') ∧
  ("0" ∉ scens_ids cs → "1" ∉ scens_ids cs → scens_ids cs' = scens_ids cs) ∧
  ∃ k_PTO_C_ k_PTO_CE_,
    ∀ k sc, (k, sc) ∈ scens cs' →
      params sc !! "k_PTO_C_" = Some (VFloat k_PTO_C_) ∧
      params sc !! "k_PTO_CE_" = Some (VFloat k_PTO_CE_).
Proof.
  intros (base0 & base1 & acc0 & acc1 & _ & _ & _ & _ & Hscens)
    %improve_pareto_norm_factors_Ok.
  assert (Hids : scens_ids cs' = filter (λ k, k ∉ ["0"; "1"]) (scens_ids cs)).
  { unfold scens_ids, scens_dic. rewrite Hscens, <- list_fmap_compose.
    change (fst ∘ _) with (@fst string Scenario).
    rewrite !delattr_keys, list_filter_filter.
    apply list_filter_iff. intros k.
    rewrite !not_elem_of_cons. pose proof (not_elem_of_nil k). tauto. }
  split_and!.
  - done.
  - rewrite Hids, list_elem_of_filter. intros [H _]. apply H. left.
  - rewrite Hids, list_elem_of_filter. intros [H _]. apply H. right. left.
  - intros H0 H1. rewrite Hids. apply filter_all, Forall_forall.
    intros k Hk [->|[->|[]%elem_of_nil]%elem_of_cons]%elem_of_cons; done.
  - exists (1000 / np_mean acc1.1)%float, (1000 / np_mean acc1.2)%float.
    intros k sc. rewrite Hscens, list_elem_of_fmap.
    intros ([k0 sc0] & [= -> ->] & _). apply set_norm_factors_params.
Qed.

Lemma improve_pareto_norm_factors_registry_witness :
  scens_ids cs_normalised = filter (λ k, k ∉ ["0"; "1"]) (scens_ids cs_REF) ∧
  ("0" ∉ scens_ids cs_normalised) ∧ ("1" ∉ scens_ids cs_normalised) ∧
  ("0" ∉ scens_ids cs_REF → "1" ∉ scens_ids cs_REF →
   scens_ids cs_normalised = scens_ids cs_REF) ∧
  ∃ k_PTO_C_ k_PTO_CE_,
    ∀ k sc, (k, sc) ∈ scens cs_normalised →
      params sc !! "k_PTO_C_" = Some (VFloat k_PTO_C_) ∧
      params sc !! "k_PTO_CE_" = Some (VFloat k_PTO_CE_).
Proof.
  apply (improve_pareto_norm_factors_registry demo_model 1 "REF" cs_REF).
  vm_compute. reflexivity.
Defined.

(** C7 as stated fails: a scenario is registered under the id 0, the
    normalisation returns, and the registry has lost that id. *)
Lemma improve_pareto_norm_factors_drops_id :
  scens_ids cs_zero = ["REF"; "0"] ∧
  ∃ cs', improve_pareto_norm_factors demo_model 1 "REF" cs_zero = (Ok tt, cs') ∧
         scens_ids cs' = ["REF"].
Proof.
  split; [vm_compute; reflexivity|].
  exists (improve_pareto_norm_factors demo_model 1 "REF" cs_zero).2.
  split; vm_compute; reflexivity.
Qed.




(** ** Results and solve status *)

Lemma keeps_ret {S A} (I : S → Prop) (Q : A → Prop) a :
  Q a → keeps I Q (mret a).
Proof. intros Ha s Hs. split; [done|]. by intros ? [= <-]. Qed.

Lemma keeps_raise {S A} (I : S → Prop) (Q : A → Prop) e :
  keeps I Q (raise e).
Proof. intros s Hs. by split. Qed.

Lemma keeps_bind {S A B} (I : S → Prop) (Q : A → Prop) (R : B → Prop)
    (m : Py S A) (k : A → Py S B) :
  keeps I Q m → (∀ a, Q a → keeps I R (k a)) → keeps I R (m ≫= k).
Proof.
  intros Hm Hk s Hs. destruct (Hm s Hs) as [Hs' Ha].
  unfold mbind, Py_bind. destruct (m s) as [[a|e] s']; simpl in *; [|by split].
  by apply Hk; [apply Ha|].
Qed.

Lemma keeps_gets {S A} (I : S → Prop) (f : S → A) : keeps I (λ _, True) (gets f).
Proof. intros s Hs. by split. Qed.

Lemma keeps_modify {S} (I : S → Prop) (f : S → S) :
  (∀ s, I s → I (f s)) → keeps I (λ _, True) (modify f).
Proof. intros Hf s Hs. split; [by apply Hf | done]. Qed.

Lemma keeps_weaken {S A} (I : S → Prop) (Q Q' : A → Prop) (m : Py S A) :
  keeps I Q m → (∀ a, Q a → Q' a) → keeps I Q' m.
Proof. intros Hm HQ s Hs. destruct (Hm s Hs). split; auto. Qed.

Lemma keeps_for_each {S A} (I : S → Prop) (l : list A) (body : A → Py S unit) :
  (∀ x, keeps I (λ _, True) (body x)) → keeps I (λ _, True) (for_each l body).
Proof.
  intros Hbody. induction l as [|x l IH]; simpl.
  - by apply keeps_ret.
  - eapply keeps_bind; [apply Hbody | by intros].
Qed.

Lemma consistent_unsolved sc :
  res sc = None → solve_status sc = None → consistent sc.
Proof.
  intros Hr Hs. unfold consistent, last_solve_succeeded. rewrite Hr, Hs. split.
  - by intros [? ?].
  - by intros (? & ? & _).
Qed.

Lemma consistent_same sc sc' :
  res sc' = res sc → solve_status sc' = solve_status sc →
  consistent sc → consistent sc'.
Proof. unfold consistent, last_solve_succeeded. by intros -> ->. Qed.

Lemma keeps_optimize : keeps consistent (λ _, True) optimize.
Proof.
  intros sc Hsc. unfold optimize. destruct (mdl sc) as [[code values]|] eqn:Hm.
  2: { by split. }
  split; [|done]. unfold consistent, last_solve_succeeded. simpl.
  unfold is_success. case_bool_decide as Hc.
  - split; [intros _; by exists code | by eexists].
  - split; [by intros [? ?] | intros (? & [= <-] & ?); done].
Qed.

Lemma keeps_res_attr name : keeps consistent (λ _, True) (res_attr name).
Proof. intros sc Hsc. by rewrite res_attr_state. Qed.

Lemma keeps_resolve_value value :
  keeps consistent (λ _, True) (resolve_value value).
Proof.
  intros sc Hsc. split; [|done].
  destruct (resolve_value value sc) as [r sc'] eqn:E.
  apply resolve_value_state in E. by subst.
Qed.

Lemma keeps_route_value ent_name value :
  keeps consistent (λ _, True) (route_value ent_name value).
Proof.
  intros sc Hsc. split; [|done]. unfold route_value. py_unfold.
  destruct (vars_meta sc !! ent_name); simpl; by eapply consistent_same.
Qed.

Lemma keeps_apply_entity_value ent_name value :
  keeps consistent (λ _, True) (apply_entity_value ent_name value).
Proof.
  eapply keeps_bind; [apply keeps_resolve_value|].
  intros v _. apply keeps_route_value.
Qed.

Lemma consistent_derive id name doc base : consistent (derive id name doc base).
Proof. by apply consistent_unsolved. Qed.

Lemma consistent_init id name doc : consistent (Scenario_init id name doc).
Proof. by apply consistent_unsolved. Qed.

Lemma registry_consistent_setattr k sc d :
  consistent sc → Forall (λ p : string * Scenario, consistent p.2) d →
  Forall (λ p : string * Scenario, consistent p.2) (setattr k sc d).
Proof.
  intros Hsc Hd. apply Forall_forall. intros p [->|Hp]%setattr_elem_of; [done|].
  by eapply (proj1 (Forall_forall _ _) Hd).
Qed.

Lemma registry_consistent_delattr k d :
  Forall (λ p : string * Scenario, consistent p.2) d →
  Forall (λ p : string * Scenario, consistent p.2) (delattr k d).
Proof.
  intros Hd. apply Forall_forall. intros p Hp%delattr_elem_of.
  by apply (proj1 (Forall_forall _ _) Hd).
Qed.

Lemma registry_consistent_getattr k sc d :
  Forall (λ p : string * Scenario, consistent p.2) d →
  getattr k d = Some sc → consistent sc.
Proof.
  intros Hd Hk%getattr_elem_of.
  by apply (proj1 (Forall_forall _ _) Hd (k, sc)).
Qed.

Lemma keeps_get_scen k : keeps registry_consistent consistent (get_scen k).
Proof.
  intros cs Hcs. unfold get_scen.
  destruct (getattr k (scens cs)) as [sc|] eqn:Hk; simpl; [|by split].
  split; [done|]. intros ? [= <-]. by eapply registry_consistent_getattr.
Qed.

Lemma keeps_put_scen k sc :
  consistent sc → keeps registry_consistent (λ _, True) (put_scen k sc).
Proof.
  intros Hsc. apply keeps_modify. intros cs Hcs.
  by apply registry_consistent_setattr.
Qed.

Lemma keeps_del_scen k : keeps registry_consistent (λ _, True) (del_scen k).
Proof.
  intros cs Hcs. unfold del_scen.
  destruct (getattr k (scens cs)); simpl; [|by split].
  split; [|done]. by apply registry_consistent_delattr.
Qed.

Lemma keeps_on_scen {A} k sc (m : Py Scenario A) (Q : A → Prop) :
  consistent sc → keeps consistent Q m →
  keeps registry_consistent Q (on_scen k sc m).
Proof.
  intros Hsc Hm cs Hcs. unfold on_scen.
  destruct (Hm sc Hsc) as [Hsc' HQ]. destruct (m sc) as [r sc']. simpl in *.
  split; [|done]. by apply registry_consistent_setattr.
Qed.

Lemma keeps_add_scen id name doc based_on based_on_last :
  keeps registry_consistent consistent
    (add_scen id name doc based_on based_on_last).
Proof.
  unfold add_scen.
  eapply keeps_bind; [apply keeps_gets|]. intros ids _.
  eapply keeps_bind with (Q := λ _, True).
  { destruct based_on_last; [|by apply keeps_ret].
    destruct (last ids); [by apply keeps_ret | apply keeps_raise]. }
  intros bd _. eapply keeps_bind; [apply keeps_gets|]. intros n _. cbv zeta.
  eapply keeps_bind with (Q := consistent).
  { destruct bd.1.
    - eapply keeps_bind; [apply keeps_get_scen|]. intros base _.
      apply keeps_ret, consistent_derive.
    - apply keeps_ret, consistent_init. }
  intros sc Hsc. eapply keeps_bind; [by apply keeps_put_scen|].
  intros _ _. by apply keeps_ret.
Qed.

Lemma keeps_add_scens_column str_float based_on col :
  keeps registry_consistent (λ _, True)
    (add_scens_column str_float based_on col).
Proof.
  unfold add_scens_column. cbv zeta.
  eapply keeps_bind; [apply keeps_gets|]. intros n _.
  eapply keeps_bind; [apply keeps_add_scen|]. intros sc Hsc.
  apply keeps_on_scen; [done|].
  eapply keeps_bind.
  - apply keeps_modify. intros sc0 Hsc0. by eapply consistent_same.
  - intros _ _. apply keeps_for_each. intros x. apply keeps_apply_entity_value.
Qed.

Lemma keeps_add_scens str_float scen_vars nParetoPoints del_REF based_on :
  keeps registry_consistent (λ _, True)
    (add_scens str_float scen_vars nParetoPoints del_REF based_on).
Proof.
  unfold add_scens. cbv zeta.
  eapply keeps_bind; [by apply keeps_modify|]. intros _ _.
  eapply keeps_bind with (Q := λ _, True).
  { destruct (effective_scen_vars _ _) as [[|a l]|];
      [apply keeps_raise | by apply keeps_ret | apply keeps_raise]. }
  intros axes _.
  eapply keeps_bind with (Q := λ _, True).
  { case_bool_decide; [by apply keeps_ret | apply keeps_raise]. }
  intros _ _. eapply keeps_bind; [by apply keeps_modify|]. intros _ _.
  eapply keeps_bind.
  { apply keeps_for_each. intros col. apply keeps_add_scens_column. }
  intros _ _. destruct del_REF; [apply keeps_del_scen | by apply keeps_ret].
Qed.

Lemma keeps_pareto_probe model_func adjust_factor basis_scen_id i acc :
  keeps registry_consistent (λ _, True)
    (pareto_probe model_func adjust_factor basis_scen_id i acc).
Proof.
  unfold pareto_probe.
  eapply keeps_bind; [apply keeps_add_scen|]. intros sc Hsc.
  eapply keeps_bind with (Q := λ _, True).
  { apply keeps_on_scen; [done|].
    eapply keeps_bind.
    { apply keeps_modify. intros sc0 Hsc0. by eapply consistent_same. }
    intros _ _. eapply keeps_bind.
    { apply keeps_modify. intros sc0 Hsc0. by eapply consistent_same. }
    intros _ _. eapply keeps_bind; [apply keeps_optimize|]. intros _ _.
    eapply keeps_bind; [apply keeps_res_attr|]. intros c _. cbv zeta.
    eapply keeps_bind; [apply keeps_res_attr|]. intros ce _.
    by apply keeps_ret. }
  intros acc' _. eapply keeps_bind; [apply keeps_del_scen|].
  intros _ _. by apply keeps_ret.
Qed.

Lemma keeps_improve_pareto_norm_factors model_func adjust_factor basis_scen_id :
  keeps registry_consistent (λ _, True)
    (improve_pareto_norm_factors model_func adjust_factor basis_scen_id).
Proof.
  unfold improve_pareto_norm_factors.
  eapply keeps_bind; [apply keeps_pareto_probe|]. intros acc0 _.
  eapply keeps_bind; [apply keeps_pareto_probe|]. intros acc1 _.
  apply keeps_modify. intros cs Hcs. unfold registry_consistent. simpl.
  apply Forall_fmap. eapply Forall_impl; [exact Hcs|].
  intros [k sc] Hsc. simpl in *. by eapply consistent_same.
Qed.

Lemma keeps_CaseStudy_set_model model_func scens_arg :
  keeps registry_consistent (λ _, True)
    (CaseStudy_set_model model_func scens_arg).
Proof.
  unfold CaseStudy_set_model.
  eapply keeps_bind; [apply keeps_gets|]. intros ids _.
  apply keeps_for_each. intros k.
  eapply keeps_bind; [apply keeps_get_scen|]. intros sc Hsc.
  apply keeps_on_scen; [done|].
  apply keeps_modify. intros sc0 Hsc0. by eapply consistent_same.
Qed.

Lemma keeps_CaseStudy_optimize scens_arg :
  keeps registry_consistent (λ _, True) (CaseStudy_optimize scens_arg).
Proof.
  unfold CaseStudy_optimize.
  eapply keeps_bind; [apply keeps_gets|]. intros ids _.
  apply keeps_for_each. intros k.
  eapply keeps_bind; [apply keeps_get_scen|]. intros sc Hsc.
  apply keeps_on_scen; [done | apply keeps_optimize].
Qed.

Lemma keeps_for_each_in {S A} (I : S → Prop) (l : list A) (body : A → Py S unit) :
  (∀ x, x ∈ l → keeps I (λ _, True) (body x)) →
  keeps I (λ _, True) (for_each l body).
Proof.
  induction l as [|x l IH]; intros Hbody; simpl.
  - by apply keeps_ret.
  - eapply keeps_bind; [apply Hbody; left|].
    intros _ _. apply IH. intros y Hy. apply Hbody. by right.
Qed.

Lemma keeps_import_scens other_cs exclude include :
  registry_consistent other_cs →
  keeps registry_consistent (λ _, True) (import_scens other_cs exclude include).
Proof.
  intros Hother. unfold import_scens. cbv zeta.
  apply keeps_for_each_in. intros [k sc] Hin.
  case_bool_decide; [|by apply keeps_ret].
  apply keeps_put_scen. by apply (proj1 (Forall_forall _ _) Hother (k, sc)).
Qed.

Lemma keeps_state {S A} (I : S → Prop) (Q : A → Prop) (m : Py S A) s :
  keeps I Q m → I s → I (m s).2.
Proof. intros Hm Hs. by apply Hm. Qed.

Lemma reachable_consistent cs : reachable cs → registry_consistent cs.
Proof.
  induction 1.
  - constructor.
  - by eapply keeps_state; [apply keeps_add_scen|].
  - by eapply keeps_state; [apply keeps_add_scens|].
  - by eapply keeps_state; [apply keeps_improve_pareto_norm_factors|].
  - by eapply keeps_state; [apply keeps_CaseStudy_set_model|].
  - by eapply keeps_state; [apply keeps_CaseStudy_optimize|].
  - by eapply keeps_state; [apply keeps_import_scens|].
  - by eapply keeps_state; [apply keeps_del_scen|].
Qed.

(** C5.  In a case study built with the methods of [CaseStudy], a
    registered scenario is in [valid_scens] exactly when it has results,
    which is exactly when its last solve ended OPTIMAL or SUBOPTIMAL; and
    [valid_scens] holds registered scenarios only. *)
Theorem valid_scens_iff_solved cs :
  reachable cs →
  (∀ k sc, (k, sc) ∈ scens cs →
     ((k, sc) ∈ valid_scens cs ↔ is_Some (res sc)) ∧
     (is_Some (res sc) ↔ last_solve_succeeded sc)) ∧
  valid_scens cs ⊆ scens cs.
Proof.
  intros Hcs%reachable_consistent. split.
  - intros k sc Hin. split.
    + unfold valid_scens, scens_dic, has_res. rewrite list_elem_of_filter. simpl.
      destruct (res sc); split.
      * intros _. by eexists.
      * done.
      * by intros [? _].
      * by intros [? ?].
    + by apply (proj1 (Forall_forall _ _) Hcs (k, sc)).
  - intros p. unfold valid_scens, scens_dic. rewrite list_elem_of_filter. tauto.
Qed.

Lemma valid_scens_iff_solved_witness :
  (∀ k sc, (k, sc) ∈ scens cs_solved →
     ((k, sc) ∈ valid_scens cs_solved ↔ is_Some (res sc)) ∧
     (is_Some (res sc) ↔ last_solve_succeeded sc)) ∧
  valid_scens cs_solved ⊆ scens cs_solved.
Proof.
  apply (valid_scens_iff_solved cs_solved).
  unfold cs_solved.
  apply reach_optimize, reach_set_model.
  apply (reach_add_scens (λ _, "") _
           (Some [("infeasible", "i", [VInt 1])]) 0 false "REF").
  unfold cs_REF, add_REF_scen. apply reach_add_scen, reach_init.
Defined.


(** ** Sweeps and registry ids *)

(** C1 fails on this run.  After a sweep that deleted its base, the registry
    holds sc1 and sc2; a second sweep over two values, based on sc1, stores
    both of its scenarios under the id sc2: it returns normally, no id is
    new, and the scenario stored under sc2 before is gone. *)
Lemma add_scens_reuses_registered_id (str_float : float → string) :
  scens_ids cs_swept = ["sc1"; "sc2"] ∧
  (sc_name <$> getattr "sc2" (scens cs_swept)) = Some "p10" ∧
  ∃ cs', add_scens str_float (Some [("P_PV_CAPx_", "p", [VInt 20; VInt 30])])
           0 false "sc1" cs_swept = (Ok tt, cs') ∧
         scens_ids cs' = ["sc1"; "sc2"] ∧
         (sc_name <$> getattr "sc1" (scens cs')) = Some "p0" ∧
         (sc_name <$> getattr "sc2" (scens cs')) = Some "p30".
Proof.
  split_and!; [vm_compute; reflexivity | vm_compute; reflexivity |].
  exists (add_scens str_float
            (Some [("P_PV_CAPx_", "p", [VInt 20; VInt 30])])
            0 false "sc1" cs_swept).2.
  split_and!; vm_compute; reflexivity.
Qed.

Lemma length_from_product (value_lists : list (list Value)) :
  length (from_product value_lists)
  = foldr (λ l n, length l * n) 1 value_lists.
Proof.
  induction value_lists as [|l ls IH]; [done|].
  cbn [from_product foldr]. rewrite <- IH. clear IH.
  induction l as [|x l IHl]; [done|].
  rewrite bind_cons, length_app, length_fmap, IHl. simpl. lia.
Qed.

Lemma sc_id_inj (n m : nat) : "sc" +:+ pretty n = "sc" +:+ pretty m → n = m.
Proof.
  simpl. intros [= H]. change ("" +:+ ?x) with x in H.
  by apply (inj (pretty : nat → string)) in H.
Qed.

Section sweep_ids.
Variable str_float : float → string.

Lemma for_each_columns_ids based_on cols cs cs' :
  for_each cols (add_scens_column str_float based_on) cs = (Ok tt, cs') →
  (∀ j, j < length cols →
        "sc" +:+ pretty (length (scens cs) + j) ∉ scens_ids cs) →
  scens_ids cs' = (scens_ids cs ++ sweep_ids (length (scens cs)) (length cols))%list.
Proof.
  revert cs. induction cols as [|col cols IH]; intros cs Hrun Hfresh.
  - simpl in Hrun. injection Hrun as <-. unfold sweep_ids. simpl.
    by rewrite app_nil_r.
  - cbn [for_each] in Hrun. unfold mbind at 1, Py_bind at 1 in Hrun.
    destruct (getattr based_on (scens cs)) as [base|] eqn:Hb.
    2: { by rewrite (add_scens_column_no_base _ _ _ _ Hb) in Hrun. }
    rewrite (add_scens_column_run _ _ _ _ _ Hb) in Hrun. cbv zeta in Hrun.
    destruct (for_each col.2 _ _) as [[[]|e] sc'] in Hrun; [|done].
    set (id := "sc" +:+ pretty (length (scens cs))) in *.
    assert (Hid : id ∉ scens_ids cs).
    { specialize (Hfresh 0). rewrite Nat.add_0_r in Hfresh.
      apply Hfresh. simpl. lia. }
    apply IH in Hrun; cbn [scens set_scens] in *.
    + rewrite Hrun. unfold scens_ids, scens_dic. cbn [scens set_scens].
      rewrite setattr_keys_notin, fmap_app, length_app by done. simpl.
      rewrite <- app_assoc. f_equal. unfold sweep_ids. simpl.
      rewrite Nat.add_0_r. fold id. f_equal.
      rewrite <- fmap_S_seq, <- list_fmap_compose. apply list_fmap_ext.
      intros _ j _. simpl. do 2 f_equal. lia.
    + intros j Hj. unfold scens_ids, scens_dic. cbn [scens set_scens].
      rewrite setattr_keys_notin, fmap_app, length_app by done. simpl.
      rewrite not_elem_of_app. split.
      * replace (length (scens cs) + 1 + j) with (length (scens cs) + S j) by lia.
        apply Hfresh. simpl. lia.
      * intros Heq%list_elem_of_singleton. apply sc_id_inj in Heq. lia.
Qed.

Lemma sweep_ids_NoDup len count : NoDup (sweep_ids len count).
Proof.
  unfold sweep_ids. apply NoDup_fmap_2_strong; [|apply NoDup_seq].
  intros i j _ _ Heq%sc_id_inj. lia.
Qed.

(** X7.  Where the ids a sweep computes are free, a sweep that returns has
    stored one scenario per point of the product of its axes, under ids that
    are new and distinct, after those registered before. *)
Lemma add_scens_fresh_ids scen_vars nParetoPoints based_on cs cs' a axes :
  effective_scen_vars scen_vars nParetoPoints = Some (a :: axes) →
  NoDup (scens_ids cs) →
  let count := foldr (λ (ax : Axis) n, length ax.2 * n) 1 (a :: axes) in
  (∀ j, j < count → "sc" +:+ pretty (length (scens cs) + j) ∉ scens_ids cs) →
  add_scens str_float scen_vars nParetoPoints false based_on cs = (Ok tt, cs') →
  scens_ids cs' = (scens_ids cs ++ sweep_ids (length (scens cs)) count)%list ∧
  length (scens cs') = length (scens cs) + count ∧
  NoDup (scens_ids cs').
Proof.
  intros Heff Hnd count Hfresh Hrun.
  assert (Hcount : length (build_scen_df str_float (a :: axes)) = count).
  { unfold build_scen_df. rewrite length_fmap, length_from_product.
    by rewrite foldr_fmap. }
  unfold add_scens in Hrun. rewrite Heff in Hrun. py_unfold.
  cbv beta iota zeta in Hrun.
  case_bool_decide as Hnames; [|done].
  destruct (for_each _ _ _) as [[[]|e] cs1] eqn:Hloop in Hrun; [|done].
  injection Hrun as <-.
  apply for_each_columns_ids in Hloop; cbn [scens set_scen_df set_scen_vars] in *.
  2: { intros j Hj. apply Hfresh. by rewrite <- Hcount. }
  rewrite Hcount in Hloop.
  assert (Hids : scens_ids cs1
                 = (scens_ids cs ++ sweep_ids (length (scens cs)) count)%list)
    by exact Hloop.
  split_and!; [done | |].
  - transitivity (length (scens_ids cs1)); [unfold scens_ids, scens_dic;
      by rewrite length_fmap|].
    rewrite Hids, length_app. unfold scens_ids, scens_dic, sweep_ids.
    by rewrite !length_fmap, length_seq.
  - rewrite Hids. apply NoDup_app. split_and!; [done | | apply sweep_ids_NoDup].
    intros k Hk (j & -> & Hj%elem_of_seq)%list_elem_of_fmap.
    apply (Hfresh j); [lia | done].
Qed.
End sweep_ids.

(** ** The registry stays a dictionary *)

Lemma keeps_unique_put_scen k sc :
  keeps unique_ids (λ _, True) (put_scen k sc).
Proof. apply keeps_modify. intros cs Hcs. by apply setattr_NoDup. Qed.

Lemma keeps_unique_del_scen k : keeps unique_ids (λ _, True) (del_scen k).
Proof.
  intros cs Hcs. unfold del_scen.
  destruct (getattr k (scens cs)); simpl; [|by split].
  split; [|done]. by apply delattr_NoDup.
Qed.

Lemma keeps_unique_get_scen k : keeps unique_ids (λ _, True) (get_scen k).
Proof.
  intros cs Hcs. unfold get_scen. by destruct (getattr k (scens cs)).
Qed.

Lemma keeps_unique_on_scen {A} k sc (m : Py Scenario A) :
  keeps unique_ids (λ _, True) (on_scen k sc m).
Proof.
  intros cs Hcs. unfold on_scen. destruct (m sc) as [r sc']. simpl.
  split; [|done]. by apply setattr_NoDup.
Qed.

Lemma keeps_unique_add_scen id name doc based_on based_on_last :
  keeps unique_ids (λ _, True) (add_scen id name doc based_on based_on_last).
Proof.
  unfold add_scen.
  eapply keeps_bind; [apply keeps_gets|]. intros ids _.
  eapply keeps_bind with (Q := λ _, True).
  { destruct based_on_last; [|by apply keeps_ret].
    destruct (last ids); [by apply keeps_ret | apply keeps_raise]. }
  intros bd _. eapply keeps_bind; [apply keeps_gets|]. intros n _. cbv zeta.
  eapply keeps_bind with (Q := λ _, True).
  { destruct bd.1; [|by apply keeps_ret].
    eapply keeps_bind; [apply keeps_unique_get_scen|]. intros base _.
    by apply keeps_ret. }
  intros sc _. eapply keeps_bind; [apply keeps_unique_put_scen|].
  intros _ _. by apply keeps_ret.
Qed.

Lemma keeps_unique_add_scens str_float scen_vars nParetoPoints del_REF based_on :
  keeps unique_ids (λ _, True)
    (add_scens str_float scen_vars nParetoPoints del_REF based_on).
Proof.
  unfold add_scens. cbv zeta.
  eapply keeps_bind; [by apply keeps_modify|]. intros _ _.
  eapply keeps_bind with (Q := λ _, True).
  { destruct (effective_scen_vars _ _) as [[|a l]|];
      [apply keeps_raise | by apply keeps_ret | apply keeps_raise]. }
  intros axes _.
  eapply keeps_bind with (Q := λ _, True).
  { case_bool_decide; [by apply keeps_ret | apply keeps_raise]. }
  intros _ _. eapply keeps_bind; [by apply keeps_modify|]. intros _ _.
  eapply keeps_bind.
  { apply keeps_for_each. intros col. unfold add_scens_column. cbv zeta.
    eapply keeps_bind; [apply keeps_gets|]. intros n _.
    eapply keeps_bind; [apply keeps_unique_add_scen|]. intros sc _.
    apply keeps_unique_on_scen. }
  intros _ _.
  destruct del_REF; [apply keeps_unique_del_scen | by apply keeps_ret].
Qed.

Lemma keeps_unique_improve model_func adjust_factor basis_scen_id :
  keeps unique_ids (λ _, True)
    (improve_pareto_norm_factors model_func adjust_factor basis_scen_id).
Proof.
  assert (Hprobe : ∀ i acc, keeps unique_ids (λ _, True)
            (pareto_probe model_func adjust_factor basis_scen_id i acc)).
  { intros i acc. unfold pareto_probe.
    eapply keeps_bind; [apply keeps_unique_add_scen|]. intros sc _.
    eapply keeps_bind; [apply keeps_unique_on_scen|]. intros acc' _.
    eapply keeps_bind; [apply keeps_unique_del_scen|]. intros _ _.
    by apply keeps_ret. }
  unfold improve_pareto_norm_factors.
  eapply keeps_bind; [apply Hprobe|]. intros acc0 _.
  eapply keeps_bind; [apply Hprobe|]. intros acc1 _.
  apply keeps_modify. intros cs Hcs. unfold unique_ids, scens_ids, scens_dic.
  simpl. rewrite <- list_fmap_compose. exact Hcs.
Qed.

(** Every case study a program can build keeps the ids of its registry
    distinct: the association list is a dictionary. *)
Lemma reachable_unique_ids cs : reachable cs → unique_ids cs.
Proof.
  induction 1.
  - constructor.
  - by eapply keeps_state; [apply keeps_unique_add_scen|].
  - by eapply keeps_state; [apply keeps_unique_add_scens|].
  - by eapply keeps_state; [apply keeps_unique_improve|].
  - eapply keeps_state; [|done]. unfold CaseStudy_set_model.
    eapply keeps_bind; [apply keeps_gets|]. intros ids _.
    apply keeps_for_each. intros k.
    eapply keeps_bind; [apply keeps_unique_get_scen|]. intros sc _.
    apply keeps_unique_on_scen.
  - eapply keeps_state; [|done]. unfold CaseStudy_optimize.
    eapply keeps_bind; [apply keeps_gets|]. intros ids _.
    apply keeps_for_each. intros k.
    eapply keeps_bind; [apply keeps_unique_get_scen|]. intros sc _.
    apply keeps_unique_on_scen.
  - eapply keeps_state; [|done]. unfold import_scens. cbv zeta.
    apply keeps_for_each. intros p.
    case_bool_decide; [apply keeps_unique_put_scen | by apply keeps_ret].
  - by eapply keeps_state; [apply keeps_unique_del_scen|].
Qed.

(** ** The examples of the specification *)

Example linspace01_5 :
  linspace01 5 = [0; 0.25; 0.5; 0.75; 1]%float.
Proof. reflexivity. Qed.

Example build_scen_df_names (str_float : float → string) :
  build_scen_df str_float
    [("price_signal", "t", [VStr "flat"; VStr "tou"]);
     ("pv_capacity", "p", [VInt 0; VInt 10])]
  = [("tflat_p0", [("price_signal", VStr "flat"); ("pv_capacity", VInt 0)]);
     ("tflat_p10", [("price_signal", VStr "flat"); ("pv_capacity", VInt 10)]);
     ("ttou_p0", [("price_signal", VStr "tou"); ("pv_capacity", VInt 0)]);
     ("ttou_p10", [("price_signal", VStr "tou"); ("pv_capacity", VInt 10)])].
Proof. reflexivity. Qed.

Example long_doc_example (str_float : float → string) :
  long_doc str_float [("price_signal", VStr "flat"); ("pv_capacity", VInt 0)]
  = "price_signal=flat; pv_capacity=0".
Proof. reflexivity. Qed.

Example valid_scens_example : (valid_scens cs_solved).*1 = ["REF"].
Proof. vm_compute. reflexivity. Qed.

(** * Further properties of the code *)

(** ** [add_scen] *)

Lemma add_scen_unfold id name doc based_on based_on_last cs :
  add_scen id name doc based_on based_on_last cs =
  match (if based_on_last then
           match last (scens_ids cs) with
           | Some b => Ok (Some b, b +:+ " + " +:+ doc)
           | None => Raise IndexError
           end
         else Ok (based_on, doc)) with
  | Raise e => (Raise e, cs)
  | Ok (None, doc') =>
      let sc := Scenario_init (add_scen_id id cs) name doc' in
      (Ok sc, set_scens (setattr (add_scen_id id cs) sc (scens cs)) cs)
  | Ok (Some b, doc') =>
      match getattr b (scens cs) with
      | Some base =>
          let sc := derive (add_scen_id id cs) name doc' base in
          (Ok sc, set_scens (setattr (add_scen_id id cs) sc (scens cs)) cs)
      | None => (Raise (AttributeError b), cs)
      end
  end.
Proof.
  unfold add_scen, get_scen, put_scen, add_scen_id. py_unfold.
  destruct based_on_last.
  - destruct (last (scens_ids cs)) as [b|]; [|done]. cbn [fst snd].
    destruct (getattr b (scens cs)); by destruct id.
  - cbn [fst snd]. destruct based_on as [b|]; [|by destruct id].
    destruct (getattr b (scens cs)); by destruct id.
Qed.

Lemma sc_id_derive id name doc base : sc_id (derive id name doc base) = id.
Proof. reflexivity. Qed.

Lemma add_scen_Ok id name doc based_on based_on_last cs sc cs' :
  add_scen id name doc based_on based_on_last cs = (Ok sc, cs') →
  sc_id sc = add_scen_id id cs ∧ sc_name sc = name ∧
  cs' = set_scens (setattr (add_scen_id id cs) sc (scens cs)) cs.
Proof.
  rewrite add_scen_unfold.
  destruct (if based_on_last then _ else _) as [[[b|] doc']|e]; [| |done].
  - destruct (getattr b (scens cs)) as [base|]; [|done]. by intros [= <- <-].
  - by intros [= <- <-].
Qed.

(** X1.  Whatever its arguments, when [add_scen] returns a scenario, that
    scenario is the one now registered under its id, it carries the id
    asked for (or the running number sc<n>, n the size of the registry) and
    the name asked for, every other id keeps its scenario, and the ids of
    the registry are those of before, with the new id added last when it was
    not registered. *)
Theorem add_scen_registers id name doc based_on based_on_last cs sc cs' :
  add_scen id name doc based_on based_on_last cs = (Ok sc, cs') →
  sc_id sc = add_scen_id id cs ∧ sc_name sc = name ∧
  getattr (sc_id sc) (scens cs') = Some sc ∧
  (∀ k, k ≠ sc_id sc → getattr k (scens cs') = getattr k (scens cs)) ∧
  scens_ids cs' = (if decide (sc_id sc ∈ scens_ids cs) then scens_ids cs
                   else scens_ids cs ++ [sc_id sc])%list.
Proof.
  intros (Hid & Hname & ->)%add_scen_Ok. rewrite Hid. cbn [scens set_scens].
  split_and!; [done | done | apply getattr_setattr_eq | |].
  - intros k Hk. by apply getattr_setattr_ne.
  - unfold scens_ids, scens_dic. cbn [scens set_scens]. case_decide as Hin.
    + by apply setattr_keys_in.
    + by rewrite setattr_keys_notin, fmap_app.
Qed.

Lemma add_scen_registers_witness :
  ∃ sc cs', add_scen None "more PV" "" (Some "REF") false cs_REF = (Ok sc, cs') ∧
    sc_id sc = "sc1" ∧ sc_name sc = "more PV" ∧
    getattr (sc_id sc) (scens cs') = Some sc ∧
    (∀ k, k ≠ sc_id sc → getattr k (scens cs') = getattr k (scens cs_REF)) ∧
    scens_ids cs' = ["REF"; "sc1"].
Proof.
  destruct (add_scen None "more PV" "" (Some "REF") false cs_REF) as [r cs'] eqn:E.
  assert (Hr : ∃ sc, r = Ok sc) by (vm_compute in E; injection E as <- _; eauto).
  destruct Hr as [sc ->]. exists sc, cs'. split; [done|].
  destruct (add_scen_registers _ _ _ _ _ _ _ _ E) as (Hid & Hname & Hget & Hframe & Hids).
  change (add_scen_id None cs_REF) with "sc1" in Hid.
  rewrite Hid in Hids. split_and!; try done.
Defined.



(** With [based_on_last], the [based_on] argument is ignored: the new
    scenario is based on the scenario registered last, and its doc is the
    id of that scenario, " + " and the doc given. *)
Theorem add_scen_based_on_last id name doc based_on cs b :
  last (scens_ids cs) = Some b →
  add_scen id name doc based_on true cs
  = add_scen id name (b +:+ " + " +:+ doc) (Some b) false cs.
Proof. intros Hlast. rewrite !add_scen_unfold. by rewrite Hlast. Qed.

Lemma add_scen_based_on_last_witness :
  add_scen None "n" "more" None true cs_solved
  = add_scen None "n" ("sc1" +:+ " + " +:+ "more") (Some "sc1") false cs_solved.
Proof.
  apply (add_scen_based_on_last None "n" "more" None cs_solved "sc1").
  vm_compute. reflexivity.
Defined.

Lemma sweep_ids_snoc len count :
  sweep_ids len (S count) = (sweep_ids len count ++ ["sc" +:+ pretty (len + count)])%list.
Proof. unfold sweep_ids. by rewrite seq_S, fmap_app. Qed.

Lemma sweep_ids_app len n m :
  sweep_ids len (n + m) = (sweep_ids len n ++ sweep_ids (len + n) m)%list.
Proof.
  unfold sweep_ids. rewrite seq_app, fmap_app. f_equal. simpl.
  replace (seq n m) with (Nat.add n <$> seq 0 m)
    by (rewrite fmap_add_seq; f_equal; lia).
  rewrite <- list_fmap_compose.
  apply list_fmap_ext. intros _ j _. simpl. do 2 f_equal. lia.
Qed.

Lemma sweep_ids_not_REF len count : "REF" ∉ sweep_ids len count.
Proof. unfold sweep_ids. by intros (j & [=] & _)%list_elem_of_fmap. Qed.

Lemma numbered_fresh cs j :
  numbered cs → scens cs ≠ [] →
  "sc" +:+ pretty (length (scens cs) + j) ∉ scens_ids cs.
Proof.
  intros Hnum Hne. rewrite Hnum. intros [[=]|Hin]%elem_of_cons.
  unfold sweep_ids in Hin. apply list_elem_of_fmap in Hin as (i & Heq & Hi).
  apply sc_id_inj in Heq. apply elem_of_seq in Hi.
  destruct (scens cs); [done|]. simpl in *. lia.
Qed.

Lemma numbered_nonempty cs : numbered cs → scens cs ≠ [].
Proof.
  unfold numbered, scens_ids, scens_dic. intros Hnum Hnil. by rewrite Hnil in Hnum.
Qed.

Lemma numbered_extend cs (scens' : list (string * Scenario)) count :
  numbered cs →
  scens'.*1 = (scens_ids cs ++ sweep_ids (length (scens cs)) count)%list →
  numbered (set_scens scens' cs).
Proof.
  intros Hnum Hids. pose proof (numbered_nonempty cs Hnum) as Hne.
  unfold numbered, scens_ids, scens_dic in *. cbn [scens set_scens].
  assert (Hlen : length scens' = length (scens cs) + count).
  { rewrite <- (length_fmap fst scens'), Hids, length_app, length_fmap.
    unfold sweep_ids. by rewrite length_fmap, length_seq. }
  rewrite Hids, Hnum at 1. rewrite Hlen. simpl. f_equal.
  replace (length (scens cs) + count - 1) with (length (scens cs) - 1 + count)
    by (destruct (scens cs); simpl in *; [done | lia]).
  rewrite sweep_ids_app. do 2 f_equal.
  destruct (scens cs); simpl in *; [done | lia].
Qed.

(** X4.  In a registry numbered consecutively (REF, sc1, sc2, ...), a
    scenario added without an id gets the next number, which is new, and the
    registry stays numbered consecutively, one scenario longer. *)
Theorem add_scen_numbers_consecutively name doc based_on based_on_last cs sc cs' :
  numbered cs →
  add_scen None name doc based_on based_on_last cs = (Ok sc, cs') →
  sc_id sc = "sc" +:+ pretty (length (scens cs)) ∧
  (sc_id sc ∉ scens_ids cs) ∧
  scens_ids cs' = (scens_ids cs ++ [sc_id sc])%list ∧
  numbered cs'.
Proof.
  intros Hnum Hrun. pose proof (numbered_nonempty cs Hnum) as Hne.
  destruct (add_scen_Ok _ _ _ _ _ _ _ _ Hrun) as (Hid & _ & ->).
  assert (Hlen : add_scen_id None cs = "sc" +:+ pretty (length (scens cs))).
  { unfold add_scen_id, scens_list, scens_dic. by rewrite length_fmap. }
  rewrite Hlen in Hid.
  assert (Hfresh : sc_id sc ∉ scens_ids cs).
  { rewrite Hid. rewrite <- (Nat.add_0_r (length (scens cs))).
    by apply numbered_fresh. }
  assert (Hids : scens_ids (set_scens (setattr (add_scen_id None cs) sc (scens cs)) cs)
                 = (scens_ids cs ++ [sc_id sc])%list).
  { unfold scens_ids, scens_dic. cbn [scens set_scens]. rewrite Hlen, <- Hid.
    by rewrite setattr_keys_notin, fmap_app. }
  split_and!; [done | done | done |].
  apply (numbered_extend cs _ 1); [done|].
  unfold scens_ids, scens_dic in Hids. cbn [scens set_scens] in Hids.
  rewrite Hids, Hid. unfold sweep_ids. simpl. by rewrite Nat.add_0_r.
Qed.

Lemma add_scen_numbers_consecutively_witness :
  ∃ sc cs', add_scen None "n" "" (Some "REF") false cs_solved = (Ok sc, cs') ∧
    sc_id sc = "sc2" ∧ scens_ids cs' = ["REF"; "sc1"; "sc2"] ∧ numbered cs'.
Proof.
  destruct (add_scen None "n" "" (Some "REF") false cs_solved) as [r cs'] eqn:E.
  assert (Hr : ∃ sc, r = Ok sc) by (vm_compute in E; injection E as <- _; eauto).
  destruct Hr as [sc ->]. exists sc, cs'. split; [done|].
  assert (Hnum : numbered cs_solved) by (vm_compute; reflexivity).
  destruct (add_scen_numbers_consecutively _ _ _ _ _ _ _ Hnum E)
    as (Hid & _ & Hids & Hnum').
  change (length (scens cs_solved)) with 2 in Hid.
  change (scens_ids cs_solved) with ["REF"; "sc1"] in Hids.
  rewrite Hid in Hids. by split_and!.
Defined.

(** ** The reference scenario *)


(** X6.  Where no scenario is registered under REF, [REF_scen] is
    [any_scen]: the first scenario of the registry, and [IndexError] on an
    empty registry; both raise only on the empty registry. *)
Theorem REF_scen_falls_back_to_any_scen cs :
  ("REF" ∉ scens_ids cs → REF_scen cs = any_scen cs) ∧
  (scens cs = [] ↔ REF_scen cs = (Raise IndexError, cs)) ∧
  (scens cs = [] ↔ any_scen cs = (Raise IndexError, cs)).
Proof.
  unfold REF_scen, any_scen, scens_list, scens_dic. split_and!.
  - intros Hout%getattr_None. unfold scens_dic in Hout. by rewrite Hout.
  - split.
    + by intros ->.
    + destruct (scens cs) as [|[k sc] l]; [done|]. simpl.
      case_decide; [done|]. by destruct (getattr "REF" l).
  - split; [by intros -> | by destruct (scens cs)].
Qed.

(** ** Sweeps, column by column *)

Lemma getattr_app_l {A} k (v : A) d l :
  getattr k d = Some v → getattr k (d ++ l)%list = Some v.
Proof.
  induction d as [|[k' v'] d IH]; simpl; [done|]. case_decide; [done | apply IH].
Qed.

Lemma getattr_app_r {A} k (d l : list (string * A)) :
  k ∉ d.*1 → getattr k (d ++ l)%list = getattr k l.
Proof.
  induction d as [|[k' v'] d IH]; simpl; [done|].
  rewrite not_elem_of_cons. intros [? ?]. rewrite decide_False by done. auto.
Qed.

Section sweep_columns.
Variable str_float : float → string.

Lemma for_each_columns_run based_on base cols cs :
  getattr based_on (scens cs) = Some base →
  (∀ j, j < length cols →
        "sc" +:+ pretty (length (scens cs) + j) ∉ scens_ids cs) →
  for_each cols (add_scens_column str_float based_on) cs =
  let '(r, l) := run_columns str_float base (length (scens cs)) cols in
  (r, set_scens (scens cs ++ l) cs).
Proof.
  revert cs. induction cols as [|col cols IH]; intros cs Hb Hfresh.
  - simpl. rewrite app_nil_r. by destruct cs.
  - cbn [for_each run_columns]. unfold mbind at 1, Py_bind at 1.
    rewrite (add_scens_column_run _ _ _ _ _ Hb). cbv zeta.
    fold (column_scen str_float base ("sc" +:+ pretty (length (scens cs))) col).
    set (id := "sc" +:+ pretty (length (scens cs))) in *.
    assert (Hid : id ∉ scens_ids cs).
    { specialize (Hfresh 0). rewrite Nat.add_0_r in Hfresh.
      apply Hfresh. simpl. lia. }
    destruct (column_scen str_float base id col) as [[[]|e] sc'].
    2: { by rewrite setattr_keys_notin. }
    rewrite IH; cbn [scens set_scens].
    + rewrite setattr_keys_notin, length_app by done. simpl.
      replace (length (scens cs) + 1) with (S (length (scens cs))) by lia.
      destruct (run_columns _ _ _ _) as [r l]. cbn [scens set_scens].
      by rewrite <- app_assoc.
    + rewrite setattr_keys_notin by done. by apply getattr_app_l.
    + intros j Hj. unfold scens_ids, scens_dic. cbn [scens set_scens].
      rewrite setattr_keys_notin, fmap_app, length_app by done. simpl.
      rewrite not_elem_of_app. split.
      * replace (length (scens cs) + 1 + j) with (length (scens cs) + S j) by lia.
        apply Hfresh. simpl. lia.
      * intros Heq%list_elem_of_singleton. apply sc_id_inj in Heq. lia.
Qed.

Lemma run_columns_keys base len cols :
  (run_columns str_float base len cols).2.*1
  = sweep_ids len (length (run_columns str_float base len cols).2).
Proof.
  revert len. induction cols as [|col cols IH]; intros len; [done|].
  cbn [run_columns].
  destruct (column_scen _ _ _ _) as [[[]|e] sc].
  - specialize (IH (S len)). destruct (run_columns _ _ (S len) cols) as [r l].
    cbn [snd fmap list_fmap length] in *. rewrite IH. unfold sweep_ids. simpl.
    rewrite Nat.add_0_r. f_equal.
    rewrite <- fmap_S_seq, <- list_fmap_compose. apply list_fmap_ext.
    intros _ j _. simpl. do 2 f_equal. lia.
  - unfold sweep_ids. simpl. by rewrite Nat.add_0_r.
Qed.

Lemma run_columns_length base len cols :
  match (run_columns str_float base len cols).1 with
  | Ok _ => length (run_columns str_float base len cols).2 = length cols
  | Raise _ => (1 ≤ length (run_columns str_float base len cols).2 ≤ length cols)%nat
  end.
Proof.
  revert len. induction cols as [|col cols IH]; intros len; [done|].
  cbn [run_columns].
  destruct (column_scen _ _ _ _) as [[[]|e] sc].
  - specialize (IH (S len)). destruct (run_columns _ _ (S len) cols) as [[[]|e] l];
      simpl in *; lia.
  - simpl. lia.
Qed.

End sweep_columns.

(** What a sweep column can raise, and what it leaves alone. *)

Lemma apply_entity_value_cases ent_name value sc :
  (∃ sc', apply_entity_value ent_name value sc = (Ok tt, sc')) ∨
  (∃ s, value = VStr s ∧
        apply_entity_value ent_name value sc = (Raise (UnknownEntity s), sc)).
Proof.
  unfold apply_entity_value. py_unfold.
  assert (Hroute : ∀ v, ∃ sc', route_value ent_name v sc = (Ok tt, sc')).
  { intros v. unfold route_value. py_unfold.
    destruct (vars_meta sc !! ent_name); by eexists. }
  destruct value as [z|f|s]; simpl; [left; apply Hroute | left; apply Hroute |].
  unfold get_entity. destruct (params sc !! s); [left; apply Hroute|].
  destruct (res sc ≫= _); [left; apply Hroute|]. right. by exists s.
Qed.

Lemma for_each_apply_raises ser sc e sc' :
  for_each ser (λ x, apply_entity_value x.1 x.2) sc = (Raise e, sc') →
  ∃ s, e = UnknownEntity s ∧ VStr s ∈ ser.*2.
Proof.
  revert sc. induction ser as [|[n v] ser IH]; intros sc; [done|].
  cbn [for_each]. unfold mbind at 1, Py_bind at 1. cbn [fst snd].
  destruct (apply_entity_value_cases n v sc) as [[sc1 ->]|(s & -> & ->)].
  - intros (s & -> & Hin)%IH. exists s. split; [done|]. by right.
  - intros [= <- <-]. exists s. split; [done|]. left.
Qed.

Lemma for_each_apply_identity ser sc :
  same_identity sc (for_each ser (λ x, apply_entity_value x.1 x.2) sc).2.
Proof.
  assert (Hkeeps : keeps (same_identity sc) (λ _, True)
            (for_each ser (λ x, apply_entity_value x.1 x.2))).
  { apply keeps_for_each. intros [n v]. unfold apply_entity_value. cbn [fst snd].
    eapply keeps_bind with (Q := λ _, True).
    - intros s Hs. split; [|done].
      destruct (resolve_value v s) as [r s'] eqn:E.
      apply resolve_value_state in E. by subst.
    - intros v' _ s Hs. split; [|done]. unfold route_value. py_unfold.
      destruct (vars_meta s !! n); exact Hs. }
  by apply Hkeeps.
Qed.


Section sweep_closed_form.
Variable str_float : float → string.

Lemma run_columns_raises base len cols e :
  (run_columns str_float base len cols).1 = Raise e →
  ∃ s col, e = UnknownEntity s ∧ col ∈ cols ∧ VStr s ∈ col.2.*2.
Proof.
  revert len. induction cols as [|col cols IH]; intros len; [done|].
  cbn [run_columns].
  destruct (column_scen _ _ _ _) as [[[]|e0] sc] eqn:Hcol.
  - specialize (IH (S len)). destruct (run_columns _ _ (S len) cols) as [r l].
    simpl. intros (s & c & -> & Hc & Hs)%IH. exists s, c. split_and!; [done | by right | done].
  - simpl. intros [= ->]. unfold column_scen in Hcol.
    apply for_each_apply_raises in Hcol as (s & -> & Hs).
    exists s, col. split_and!; [done | left | done].
Qed.

Lemma add_scens_closed scen_vars nParetoPoints del_REF based_on cs a axes base :
  effective_scen_vars scen_vars nParetoPoints = Some (a :: axes) →
  NoDup ((λ a : Axis, a.1.1) <$> a :: axes) →
  getattr based_on (scens cs) = Some base →
  (∀ j, j < sweep_count (a :: axes) →
        "sc" +:+ pretty (length (scens cs) + j) ∉ scens_ids cs) →
  let df := build_scen_df str_float (a :: axes) in
  let cs0 := set_scen_df df (set_scen_vars (Some (a :: axes)) cs) in
  add_scens str_float scen_vars nParetoPoints del_REF based_on cs =
  match run_columns str_float base (length (scens cs)) df with
  | (Ok _, l) =>
      (Ok tt,
       set_scens (if del_REF then delattr based_on (scens cs ++ l)
                  else (scens cs ++ l)%list) cs0)
  | (Raise e, l) => (Raise e, set_scens (scens cs ++ l) cs0)
  end.
Proof.
  intros Heff Hnd Hb Hfresh df cs0.
  assert (Hcount : length df = sweep_count (a :: axes)).
  { unfold df, build_scen_df, sweep_count.
    rewrite length_fmap, length_from_product. by rewrite foldr_fmap. }
  rewrite (add_scens_run str_float _ _ _ _ _ a axes Heff Hnd). cbv zeta.
  fold df. fold cs0.
  rewrite (for_each_columns_run str_float based_on base df cs0 Hb).
  2: { intros j Hj. apply Hfresh. by rewrite <- Hcount. }
  change (scens cs0) with (scens cs).
  destruct (run_columns _ _ _ _) as [[[]|e] l]; [|done].
  destruct del_REF; [|done]. unfold del_scen. cbn [scens set_scens].
  by rewrite (getattr_app_l _ _ _ _ Hb).
Qed.
End sweep_closed_form.

Lemma cs_REF_fresh j : "sc" +:+ pretty (length (scens cs_REF) + j) ∉ scens_ids cs_REF.
Proof. apply numbered_fresh; [reflexivity | discriminate]. Qed.

(** A sweep of two values from REF alone: its ids are free. *)
Lemma add_scens_fresh_ids_witness :
  scens_ids cs_two = (scens_ids cs_REF ++ sweep_ids (length (scens cs_REF)) 2)%list ∧
  length (scens cs_two) = length (scens cs_REF) + 2 ∧
  NoDup (scens_ids cs_two).
Proof.
  apply (add_scens_fresh_ids (λ _, "")
           (Some [("P_PV_CAPx_", "p", [VInt 0; VInt 10])]) 0 "REF" cs_REF cs_two
           ("P_PV_CAPx_", "p", [VInt 0; VInt 10]) []).
  - reflexivity.
  - apply (bool_decide_unpack _). vm_compute. exact I.
  - intros j _. apply cs_REF_fresh.
  - vm_compute. reflexivity.
Defined.

Section sweep_outcomes.
Variable str_float : float → string.

(** X8.  A sweep does not roll back.  When a sweep whose base scenario is
    registered and whose ids are free raises, the cause is a string value
    that names no entity ([UnknownEntity]); the scenarios of the columns
    before the failing one stay registered, and so does the scenario of the
    failing column; the scenarios registered before are as they were. *)
Theorem add_scens_no_rollback scen_vars nParetoPoints del_REF based_on cs
    a axes base e cs' :
  effective_scen_vars scen_vars nParetoPoints = Some (a :: axes) →
  NoDup ((λ a : Axis, a.1.1) <$> a :: axes) →
  getattr based_on (scens cs) = Some base →
  (∀ j, j < sweep_count (a :: axes) →
        "sc" +:+ pretty (length (scens cs) + j) ∉ scens_ids cs) →
  add_scens str_float scen_vars nParetoPoints del_REF based_on cs = (Raise e, cs') →
  (∃ s, e = UnknownEntity s) ∧
  (∃ j, j < sweep_count (a :: axes) ∧
        scens_ids cs' = (scens_ids cs ++ sweep_ids (length (scens cs)) (S j))%list) ∧
  (∀ k, k ∈ scens_ids cs → getattr k (scens cs') = getattr k (scens cs)).
Proof.
  intros Heff Hnd Hb Hfresh.
  rewrite (add_scens_closed str_float _ _ _ _ _ _ _ _ Heff Hnd Hb Hfresh). cbv zeta.
  set (df := build_scen_df str_float (a :: axes)).
  assert (Hcount : length df = sweep_count (a :: axes)).
  { unfold df, build_scen_df, sweep_count.
    rewrite length_fmap, length_from_product. by rewrite foldr_fmap. }
  pose proof (run_columns_keys str_float base (length (scens cs)) df) as Hkeys.
  pose proof (run_columns_length str_float base (length (scens cs)) df) as Hlen.
  pose proof (run_columns_raises str_float base (length (scens cs)) df) as Hraise.
  destruct (run_columns _ _ _ _) as [[[]|e0] l]; [done|]. cbn [fst snd] in *.
  intros [= <- <-]. cbn [scens set_scens set_scen_df set_scen_vars].
  split_and!.
  - destruct (Hraise e0 eq_refl) as (s & _ & -> & _). by exists s.
  - exists (length l - 1). split; [lia|].
    unfold scens_ids, scens_dic. cbn [scens set_scens set_scen_df set_scen_vars].
    rewrite fmap_app, Hkeys. do 2 f_equal. lia.
  - intros k [v Hv]%getattr_is_Some. unfold scens_dic in Hv.
    rewrite Hv. by apply getattr_app_l.
Qed.


(** X10.  With [del_REF], a sweep that returns has removed the scenario it
    was based on, whatever its id, after creating its scenarios: the ids are
    those of before without the base, followed by the new ones. *)
Theorem add_scens_del_REF scen_vars nParetoPoints based_on cs a axes base cs' :
  effective_scen_vars scen_vars nParetoPoints = Some (a :: axes) →
  NoDup ((λ a : Axis, a.1.1) <$> a :: axes) →
  getattr based_on (scens cs) = Some base →
  (∀ j, j < sweep_count (a :: axes) →
        "sc" +:+ pretty (length (scens cs) + j) ∉ scens_ids cs) →
  add_scens str_float scen_vars nParetoPoints true based_on cs = (Ok tt, cs') →
  (based_on ∉ scens_ids cs') ∧
  scens_ids cs' = (filter (λ k, k ≠ based_on) (scens_ids cs)
                   ++ sweep_ids (length (scens cs)) (sweep_count (a :: axes)))%list.
Proof.
  intros Heff Hnd Hb Hfresh.
  rewrite (add_scens_closed str_float _ _ _ _ _ _ _ _ Heff Hnd Hb Hfresh). cbv zeta.
  set (df := build_scen_df str_float (a :: axes)).
  assert (Hcount : length df = sweep_count (a :: axes)).
  { unfold df, build_scen_df, sweep_count.
    rewrite length_fmap, length_from_product. by rewrite foldr_fmap. }
  pose proof (run_columns_keys str_float base (length (scens cs)) df) as Hkeys.
  pose proof (run_columns_length str_float base (length (scens cs)) df) as Hlen.
  destruct (run_columns _ _ _ _) as [[[]|e0] l]; [|done]. cbn [fst snd] in *.
  intros [= <-]. unfold scens_ids, scens_dic.
  cbn [scens set_scens set_scen_df set_scen_vars].
  rewrite delattr_keys. split.
  - rewrite list_elem_of_filter. tauto.
  - rewrite fmap_app, filter_app, Hkeys, Hlen, Hcount. f_equal.
    apply filter_all, Forall_forall.
    intros k (j & -> & Hj%elem_of_seq)%list_elem_of_fmap Heq.
    apply (Hfresh j); [lia|]. rewrite Heq.
    apply getattr_is_Some. by eexists.
Qed.
End sweep_outcomes.

Lemma add_scens_no_rollback_witness :
  (∃ s, UnknownEntity "c_GRID_X_T" = UnknownEntity s) ∧
  (∃ j, j < sweep_count [("c_GRID_T", "t", [VInt 1; VStr "c_GRID_X_T"])] ∧
        scens_ids cs_half
        = (scens_ids cs_REF ++ sweep_ids (length (scens cs_REF)) (S j))%list) ∧
  (∀ k, k ∈ scens_ids cs_REF → getattr k (scens cs_half) = getattr k (scens cs_REF)).
Proof.
  apply (add_scens_no_rollback (λ _, "")
           (Some [("c_GRID_T", "t", [VInt 1; VStr "c_GRID_X_T"])]) 0 false "REF"
           cs_REF ("c_GRID_T", "t", [VInt 1; VStr "c_GRID_X_T"]) []
           (Scenario_init "REF" "REF" "Reference scenario")).
  - reflexivity.
  - apply (bool_decide_unpack _). vm_compute. exact I.
  - reflexivity.
  - intros j _. apply cs_REF_fresh.
  - vm_compute. reflexivity.
Defined.


Lemma add_scens_del_REF_witness :
  ("REF" ∉ scens_ids cs_swept) ∧
  scens_ids cs_swept
  = (filter (λ k, k ≠ "REF") (scens_ids cs_REF)
     ++ sweep_ids (length (scens cs_REF))
          (sweep_count [("P_PV_CAPx_", "p", [VInt 0; VInt 10])]))%list.
Proof.
  apply (add_scens_del_REF (λ _, "")
           (Some [("P_PV_CAPx_", "p", [VInt 0; VInt 10])]) 0 "REF" cs_REF
           ("P_PV_CAPx_", "p", [VInt 0; VInt 10]) []
           (Scenario_init "REF" "REF" "Reference scenario")).
  - reflexivity.
  - apply (bool_decide_unpack _). vm_compute. exact I.
  - reflexivity.
  - intros j _. apply cs_REF_fresh.
  - vm_compute. reflexivity.
Defined.

(** X11.  In a registry numbered consecutively, a sweep that deletes
    nothing and returns leaves the registry numbered consecutively, with one
    more scenario for each point of the product of its axes (the Pareto axis
    included when one was asked for). *)
Theorem add_scens_numbers_consecutively (str_float : float → string)
    scen_vars_arg nParetoPoints based_on cs a axes cs' :
  numbered cs →
  effective_scen_vars scen_vars_arg nParetoPoints = Some (a :: axes) →
  add_scens str_float scen_vars_arg nParetoPoints false based_on cs = (Ok tt, cs') →
  numbered cs' ∧
  length (scens cs') = length (scens cs) + sweep_count (a :: axes).
Proof.
  intros Hnum Heff Hrun. pose proof (numbered_nonempty cs Hnum) as Hne.
  set (df := build_scen_df str_float (a :: axes)).
  assert (Hcount : length df = sweep_count (a :: axes)).
  { unfold df, build_scen_df, sweep_count.
    rewrite length_fmap, length_from_product. by rewrite foldr_fmap. }
  unfold add_scens in Hrun. rewrite Heff in Hrun. py_unfold.
  cbv beta iota zeta in Hrun.
  case_bool_decide as Hnames; [|done]. fold df in Hrun.
  destruct (for_each df _ _) as [[[]|e] cs1] eqn:Hloop in Hrun; [|done].
  injection Hrun as <-.
  pose proof Hloop as Hids.
  apply for_each_columns_ids in Hids; cbn [scens set_scen_df set_scen_vars] in *.
  2: { intros j _. exact (numbered_fresh cs j Hnum Hne). }
  rewrite Hcount in Hids.
  assert (Hcs1 : numbered (set_scens (scens cs1) cs)).
  { by apply (numbered_extend cs _ (sweep_count (a :: axes))). }
  split; [exact Hcs1|].
  rewrite <- (length_fmap fst (scens cs1)).
  change ((scens cs1).*1) with (scens_ids cs1). rewrite Hids, length_app.
  unfold scens_ids, scens_dic, sweep_ids. by rewrite !length_fmap, length_seq.
Qed.

Lemma add_scens_numbers_consecutively_witness :
  numbered cs_two ∧
  length (scens cs_two)
  = length (scens cs_REF) + sweep_count [("P_PV_CAPx_", "p", [VInt 0; VInt 10])].
Proof.
  apply (add_scens_numbers_consecutively (λ _, "")
           (Some [("P_PV_CAPx_", "p", [VInt 0; VInt 10])]) 0 "REF" cs_REF
           ("P_PV_CAPx_", "p", [VInt 0; VInt 10]) []).
  - reflexivity.
  - reflexivity.
  - vm_compute. reflexivity.
Defined.

(** ** Sweeps over literal values *)





Section sweep_literal.
Variable str_float : float → string.



End sweep_literal.


(** ** More on the Pareto normalisation *)

Lemma scens_ids_setattr k sc d cs :
  k ∈ scens_ids (set_scens (setattr k sc d) cs).
Proof.
  unfold scens_ids, scens_dic. cbn [scens set_scens].
  apply getattr_is_Some. rewrite getattr_setattr_eq. by eexists.
Qed.

(** X13.  When the normalisation raises, it has written no factor: every
    scenario registered under an id other than 0 and 1 is as it was.  And it
    raises either because the base scenario is not registered (any more), or
    while a probe is in work, and then that probe is left in the
    registry. *)
Theorem improve_pareto_norm_factors_raises model_func adjust_factor
    basis_scen_id cs e cs' :
  improve_pareto_norm_factors model_func adjust_factor basis_scen_id cs
    = (Raise e, cs') →
  (∀ k, k ∉ ["0"; "1"] → getattr k (scens cs') = getattr k (scens cs)) ∧
  ((e = AttributeError basis_scen_id ∧ basis_scen_id ∉ scens_ids cs') ∨
   "0" ∈ scens_ids cs' ∨ "1" ∈ scens_ids cs').
Proof.
  unfold improve_pareto_norm_factors. unfold mbind at 1, Py_bind at 1.
  destruct (getattr basis_scen_id (scens cs)) as [base0|] eqn:Hb0.
  2: { rewrite (pareto_probe_no_base _ _ _ _ _ _ Hb0). intros [= <- <-].
       split; [done|]. left. split; [done|]. by apply getattr_None. }
  rewrite (pareto_probe_run _ _ _ _ _ _ _ Hb0). change (pretty 0%Z) with "0".
  destruct (probe_readings _ _ (probe_scen model_func 0 base0)) as [acc0|e0].
  2: { intros [= <- <-]. cbn [scens set_scens]. split.
       - intros k [Hk _]%not_elem_of_cons. by apply getattr_setattr_ne.
       - right. left. apply scens_ids_setattr. }
  unfold mbind at 1, Py_bind at 1.
  destruct (getattr basis_scen_id (delattr "0" (scens cs))) as [base1|] eqn:Hb1.
  2: { rewrite (pareto_probe_no_base _ _ _ _ _
                  (set_scens (delattr "0" (scens cs)) cs) Hb1). intros [= <- <-].
       cbn [scens set_scens]. split.
       - intros k [Hk _]%not_elem_of_cons. by apply getattr_delattr_ne.
       - left. split; [done|]. by apply getattr_None. }
  rewrite (pareto_probe_run _ _ _ _ _
             (set_scens (delattr "0" (scens cs)) cs) base1 Hb1).
  change (pretty 1%Z) with "1".
  destruct (probe_readings _ _ (probe_scen model_func 1 base1)) as [acc1|e1]; [done|].
  intros [= <- <-]. cbn [scens set_scens]. split.
  - intros k [Hk0 [Hk1 _]%not_elem_of_cons]%not_elem_of_cons.
    rewrite getattr_setattr_ne by done. by apply getattr_delattr_ne.
  - right. right. apply scens_ids_setattr.
Qed.

(** X14.  The normalisation cannot be based on a scenario registered under
    the id 0: the first probe is stored under 0 over the base and deleted,
    so the second probe finds no base.  It never returns normally. *)
Theorem improve_pareto_norm_factors_basis_0 model_func adjust_factor cs :
  ∃ e cs', improve_pareto_norm_factors model_func adjust_factor "0" cs
           = (Raise e, cs').
Proof.
  unfold improve_pareto_norm_factors. unfold mbind at 1, Py_bind at 1.
  destruct (getattr "0" (scens cs)) as [base0|] eqn:Hb0.
  2: { rewrite (pareto_probe_no_base _ _ _ _ _ _ Hb0). by eexists _, _. }
  rewrite (pareto_probe_run _ _ _ _ _ _ _ Hb0). change (pretty 0%Z) with "0".
  destruct (probe_readings _ _ _) as [acc0|e0]; [|by eexists _, _].
  unfold mbind at 1, Py_bind at 1.
  rewrite pareto_probe_no_base; [by eexists _, _|].
  cbn [scens set_scens]. apply getattr_delattr_eq.
Qed.

(** X15.  When the normalisation returns, every scenario left in the
    registry is the scenario that was registered under the same id before,
    changed in the two parameters k_PTO_C_ and k_PTO_CE_ only: its other
    parameters, its variables, its model, its results and its solve status
    are untouched. *)
Theorem improve_pareto_norm_factors_frame model_func adjust_factor
    basis_scen_id cs cs' :
  improve_pareto_norm_factors model_func adjust_factor basis_scen_id cs
    = (Ok tt, cs') →
  ∀ k sc', (k, sc') ∈ scens cs' →
    ∃ sc, (k, sc) ∈ scens cs ∧ same_identity sc sc' ∧
          vars_meta sc' = vars_meta sc ∧
          ∀ n, n ∉ ["k_PTO_C_"; "k_PTO_CE_"] → params sc' !! n = params sc !! n.
Proof.
  intros (base0 & base1 & acc0 & acc1 & _ & _ & _ & _ & Hscens)
    %improve_pareto_norm_factors_Ok k sc'.
  rewrite Hscens, list_elem_of_fmap.
  intros ([k0 sc] & [= -> ->] & Hin%delattr_elem_of%delattr_elem_of).
  exists sc. split_and!; [done | by repeat split | done |].
  intros n [Hn1 [Hn2 _]%not_elem_of_cons]%not_elem_of_cons.
  unfold set_norm_factors, setattr_param. simpl.
  by rewrite !lookup_insert_ne.
Qed.

Lemma improve_pareto_norm_factors_raises_witness :
  (∀ k, k ∉ ["0"; "1"] → getattr k (scens cs_leak) = getattr k (scens cs_solved)) ∧
  ((AttributeError "res" = AttributeError "sc1" ∧ "sc1" ∉ scens_ids cs_leak) ∨
   "0" ∈ scens_ids cs_leak ∨ "1" ∈ scens_ids cs_leak).
Proof.
  apply (improve_pareto_norm_factors_raises demo_model 1 "sc1" cs_solved
           (AttributeError "res") cs_leak).
  vm_compute. reflexivity.
Defined.

Lemma improve_pareto_norm_factors_frame_witness :
  ∃ sc', ("REF", sc') ∈ scens cs_normalised ∧
    ∃ sc, ("REF", sc) ∈ scens cs_REF ∧ same_identity sc sc' ∧
          vars_meta sc' = vars_meta sc ∧
          ∀ n, n ∉ ["k_PTO_C_"; "k_PTO_CE_"] → params sc' !! n = params sc !! n.
Proof.
  assert (Hin : ∃ sc', ("REF", sc') ∈ scens cs_normalised).
  { exists (set_norm_factors [(100 * 1)%float; (300 * 1)%float] [50%float; 20%float]
              (Scenario_init "REF" "REF" "Reference scenario")).
    apply getattr_elem_of. vm_compute. reflexivity. }
  destruct Hin as [sc' Hin]. exists sc'. split; [exact Hin|].
  apply (improve_pareto_norm_factors_frame demo_model 1 "REF" cs_REF cs_normalised);
    [vm_compute; reflexivity | exact Hin].
Defined.

(** ** Importing scenarios *)

Lemma import_scens_run other_cs exclude include cs :
  import_scens other_cs exclude include cs =
  (Ok tt,
   set_scens
     (foldl (λ d (p : string * Scenario),
               if bool_decide (p.1 ∈ import_selected other_cs exclude include)
               then setattr p.1 p.2 d else d)
            (scens cs) (scens other_cs)) cs).
Proof.
  unfold import_scens. cbv zeta.
  change (match include with
          | Some inc => filter (λ n, n ∈ inc)
                          match exclude with
                          | Some ex => filter (λ n, n ∉ ex) (scens other_cs).*1
                          | None => (scens other_cs).*1
                          end
          | None => match exclude with
                    | Some ex => filter (λ n, n ∉ ex) (scens other_cs).*1
                    | None => (scens other_cs).*1
                    end
          end) with (import_selected other_cs exclude include).
  generalize (import_selected other_cs exclude include). intros sel.
  generalize (scens other_cs). intros l. revert cs.
  induction l as [|[k sc] l IH]; intros cs.
  - by destruct cs.
  - cbn [for_each foldl]. unfold mbind at 1, Py_bind at 1. cbn [fst snd].
    case_bool_decide.
    + unfold put_scen, modify. rewrite IH. by cbn [scens set_scens].
    + unfold mret, Py_ret. rewrite IH. by destruct cs.
Qed.

Lemma import_selected_spec other_cs exclude include k :
  k ∈ import_selected other_cs exclude include ↔
  k ∈ scens_ids other_cs ∧
  (∀ ex, exclude = Some ex → k ∉ ex) ∧ (∀ inc, include = Some inc → k ∈ inc).
Proof.
  unfold import_selected, scens_ids, scens_dic. cbv zeta.
  destruct exclude as [ex|], include as [inc|];
    rewrite ?list_elem_of_filter; split.
  - intros (Hinc & Hex & Hin). split_and!; [done | by intros ? [= <-] | by intros ? [= <-]].
  - intros (Hin & Hex & Hinc). split_and!; eauto.
  - intros (Hex & Hin). split_and!; [done | by intros ? [= <-] | done].
  - intros (Hin & Hex & _). split; eauto.
  - intros (Hinc & Hin). split_and!; [done | done | by intros ? [= <-]].
  - intros (Hin & _ & Hinc). split; eauto.
  - intros Hin. by split_and!.
  - by intros (Hin & _ & _).
Qed.

Lemma foldl_setattr_getattr (sel : list string) (l d : list (string * Scenario)) k :
  NoDup l.*1 →
  getattr k (foldl (λ d (p : string * Scenario),
                      if bool_decide (p.1 ∈ sel) then setattr p.1 p.2 d else d) d l)
  = if bool_decide (k ∈ l.*1 ∧ k ∈ sel) then getattr k l else getattr k d.
Proof.
  revert d. induction l as [|[k' sc] l IH]; intros d Hnd.
  - rewrite bool_decide_eq_false_2; [done|].
    intros [H _]. by apply elem_of_nil in H.
  - apply NoDup_cons in Hnd as [Hk' Hnd]. cbn [foldl fst snd].
    rewrite IH by done. cbn [fmap list_fmap fst getattr].
    destruct (decide (k = k')) as [->|Hne].
    + rewrite (bool_decide_eq_false_2 (k' ∈ l.*1 ∧ _)) by tauto.
      destruct (decide (k' ∈ sel)) as [Hsel|Hsel].
      * rewrite (bool_decide_eq_true_2 (k' ∈ sel)) by done.
        rewrite getattr_setattr_eq, bool_decide_eq_true_2; [done|].
        split; [left | done].
      * rewrite (bool_decide_eq_false_2 (k' ∈ sel)) by done.
        rewrite bool_decide_eq_false_2; [done | tauto].
    + assert (Hd : getattr k (if bool_decide (k' ∈ sel) then setattr k' sc d else d)
                   = getattr k d).
      { destruct (bool_decide (k' ∈ sel)); [by apply getattr_setattr_ne | done]. }
      rewrite Hd. rewrite (bool_decide_ext (k ∈ k' :: l.*1 ∧ k ∈ sel) (k ∈ l.*1 ∧ k ∈ sel)); [done|]. rewrite elem_of_cons. tauto.
Qed.

Lemma filter_ext_in {A} (P Q : A → Prop) `{!∀ x, Decision (P x)}
    `{!∀ x, Decision (Q x)} (l : list A) :
  (∀ x, x ∈ l → P x ↔ Q x) → filter P l = filter Q l.
Proof.
  induction l as [|x l IH]; intros Hext; [done|].
  rewrite !filter_cons. rewrite IH by (intros; apply Hext; by right).
  destruct (decide (P x)) as [HP|HP], (decide (Q x)) as [HQ|HQ]; try done.
  - destruct HQ. apply Hext; [left | done].
  - destruct HP. apply Hext; [left | done].
Qed.

Lemma foldl_setattr_keys (sel : list string) (l d : list (string * Scenario)) :
  NoDup l.*1 →
  (foldl (λ d (p : string * Scenario),
            if bool_decide (p.1 ∈ sel) then setattr p.1 p.2 d else d) d l).*1
  = (d.*1 ++ filter (λ k, (k ∉ d.*1) ∧ k ∈ sel) l.*1)%list.
Proof.
  revert d. induction l as [|[k' sc] l IH]; intros d Hnd.
  - simpl. by rewrite app_nil_r.
  - rewrite fmap_cons in Hnd. apply NoDup_cons in Hnd as [Hk' Hnd].
    cbn [foldl fst snd]. rewrite IH by done. rewrite fmap_cons, filter_cons.
    cbn [fst].
    destruct (decide (k' ∈ sel)) as [Hsel|Hsel].
    + rewrite (bool_decide_eq_true_2 (k' ∈ sel)) by done.
      destruct (decide (k' ∈ d.*1)) as [Hin|Hout].
      * rewrite setattr_keys_in by done. rewrite decide_False by tauto. done.
      * rewrite setattr_keys_notin, fmap_app by done. rewrite decide_True by done.
        rewrite <- app_assoc. simpl. do 2 f_equal. apply filter_ext_in.
        intros k Hk. rewrite not_elem_of_app, list_elem_of_singleton.
        assert (k ≠ k') by (intros ->; done). tauto.
    + rewrite (bool_decide_eq_false_2 (k' ∈ sel)) by done.
      rewrite decide_False by tauto. done.
Qed.

Lemma setattr_same {A} k (v : A) d : getattr k d = Some v → setattr k v d = d.
Proof.
  induction d as [|[k' v'] d IH]; simpl; [done|].
  case_decide; [by intros [= ->]; subst | intros; f_equal; auto].
Qed.

Lemma foldl_setattr_fixed (sel : list string) (l d : list (string * Scenario)) :
  (∀ k v, (k, v) ∈ l → k ∈ sel → getattr k d = Some v) →
  foldl (λ d (p : string * Scenario),
           if bool_decide (p.1 ∈ sel) then setattr p.1 p.2 d else d) d l = d.
Proof.
  induction l as [|[k v] l IH]; intros Hall; [done|]. cbn [foldl fst snd].
  assert (Hstep : (if bool_decide (k ∈ sel) then setattr k v d else d) = d).
  { case_bool_decide; [|done]. apply setattr_same, Hall; [left | done]. }
  rewrite Hstep. apply IH. intros k0 v0 Hin. apply Hall. by right.
Qed.

Lemma foldl_setattr_all (sel : list string) (l d : list (string * Scenario)) :
  NoDup (d.*1 ++ l.*1)%list → (∀ k, k ∈ l.*1 → k ∈ sel) →
  foldl (λ d (p : string * Scenario),
           if bool_decide (p.1 ∈ sel) then setattr p.1 p.2 d else d) d l
  = (d ++ l)%list.
Proof.
  revert d. induction l as [|[k v] l IH]; intros d Hnd Hsel.
  - simpl. by rewrite app_nil_r.
  - cbn [foldl fst snd]. rewrite bool_decide_eq_true_2 by (apply Hsel; left).
    rewrite fmap_cons in Hnd. cbn [fst] in Hnd.
    assert (Hk : k ∉ d.*1).
    { apply NoDup_app in Hnd as (_ & Hdisj & _). intros Hin.
      apply (Hdisj _ Hin). left. }
    rewrite setattr_keys_notin by done. rewrite IH.
    + by rewrite <- app_assoc.
    + rewrite fmap_app. simpl. by rewrite <- app_assoc.
    + intros k0 Hk0. apply Hsel. by right.
Qed.

(** X16.  [import_scens] never raises.  It imports the scenarios of the
    other case study whose id is not in [exclude] and is in [include]
    (each filter applying only when given): each of them is bound to its id
    here, over what was registered under that id, and every other id keeps
    its scenario. *)
Theorem import_scens_binds_selected other_cs exclude include cs :
  unique_ids other_cs →
  ∃ cs', import_scens other_cs exclude include cs = (Ok tt, cs') ∧
    ∀ k,
      (k ∈ import_selected other_cs exclude include ↔
         k ∈ scens_ids other_cs ∧
         (∀ ex, exclude = Some ex → k ∉ ex) ∧
         (∀ inc, include = Some inc → k ∈ inc)) ∧
      (k ∈ import_selected other_cs exclude include →
         getattr k (scens cs') = getattr k (scens other_cs)) ∧
      (k ∉ import_selected other_cs exclude include →
         getattr k (scens cs') = getattr k (scens cs)).
Proof.
  intros Hnd. rewrite import_scens_run. eexists. split; [done|].
  intros k. cbn [scens set_scens]. rewrite foldl_setattr_getattr by done.
  split_and!.
  - apply import_selected_spec.
  - intros Hsel. rewrite bool_decide_eq_true_2; [done|]. split; [|done].
    by apply import_selected_spec in Hsel as [? _].
  - intros Hsel. rewrite bool_decide_eq_false_2; [done | tauto].
Qed.

(** X17.  After an import the registry lists the ids it had, in their
    order, followed by the imported ids that were not registered, in the
    order of the other case study. *)
Theorem import_scens_ids other_cs exclude include cs :
  unique_ids other_cs →
  scens_ids (import_scens other_cs exclude include cs).2
  = (scens_ids cs
     ++ filter (λ k, (k ∉ scens_ids cs)
                     ∧ k ∈ import_selected other_cs exclude include)
          (scens_ids other_cs))%list.
Proof.
  intros Hnd. rewrite import_scens_run. unfold scens_ids, scens_dic.
  cbn [snd scens set_scens]. by apply foldl_setattr_keys.
Qed.

(** X18.  Importing is idempotent, and an import without filters into a new
    case study copies the registry of the other case study as it is. *)
Theorem import_scens_idempotent_copy other_cs exclude include cs obj_vars :
  unique_ids other_cs →
  import_scens other_cs exclude include
    (import_scens other_cs exclude include cs).2
  = import_scens other_cs exclude include cs ∧
  scens (import_scens other_cs None None (CaseStudy_init obj_vars)).2
  = scens other_cs.
Proof.
  intros Hnd. split.
  - rewrite !import_scens_run. cbn [snd scens set_scens]. f_equal.
    rewrite foldl_setattr_fixed; [done|].
    intros k v Hin Hsel. rewrite foldl_setattr_getattr by done.
    rewrite bool_decide_eq_true_2.
    + by apply elem_of_getattr.
    + split; [|done]. apply list_elem_of_fmap. by exists (k, v).
  - rewrite import_scens_run. cbn [snd scens set_scens CaseStudy_init].
    by rewrite foldl_setattr_all.
Qed.

Lemma cs_other_unique : unique_ids cs_other.
Proof. apply (bool_decide_unpack _). vm_compute. exact I. Qed.

Lemma import_scens_binds_selected_witness :
  ∃ cs', import_scens cs_other (Some ["sc1"]) None cs_zero = (Ok tt, cs') ∧
    ∀ k,
      (k ∈ import_selected cs_other (Some ["sc1"]) None ↔
         k ∈ scens_ids cs_other ∧
         (∀ ex, Some ["sc1"] = Some ex → k ∉ ex) ∧
         (∀ inc, @None (list string) = Some inc → k ∈ inc)) ∧
      (k ∈ import_selected cs_other (Some ["sc1"]) None →
         getattr k (scens cs') = getattr k (scens cs_other)) ∧
      (k ∉ import_selected cs_other (Some ["sc1"]) None →
         getattr k (scens cs') = getattr k (scens cs_zero)).
Proof.
  apply (import_scens_binds_selected cs_other (Some ["sc1"]) None cs_zero).
  exact cs_other_unique.
Defined.

Lemma import_scens_ids_witness :
  scens_ids (import_scens cs_other None None cs_zero).2
  = (scens_ids cs_zero
     ++ filter (λ k, (k ∉ scens_ids cs_zero)
                     ∧ k ∈ import_selected cs_other None None)
          (scens_ids cs_other))%list.
Proof.
  apply (import_scens_ids cs_other None None cs_zero). exact cs_other_unique.
Defined.

Lemma import_scens_idempotent_copy_witness :
  import_scens cs_other None (Some ["sc1"])
    (import_scens cs_other None (Some ["sc1"]) cs_zero).2
  = import_scens cs_other None (Some ["sc1"]) cs_zero ∧
  scens (import_scens cs_other None None (CaseStudy_init default_obj_vars)).2
  = scens cs_other.
Proof.
  apply (import_scens_idempotent_copy cs_other None (Some ["sc1"]) cs_zero
           default_obj_vars).
  exact cs_other_unique.
Defined.

(** ** Registry keys and scenario ids *)

Lemma keyed_setattr k sc d :
  sc_id sc = k → Forall (λ p : string * Scenario, sc_id p.2 = p.1) d →
  Forall (λ p : string * Scenario, sc_id p.2 = p.1) (setattr k sc d).
Proof.
  intros Hsc Hd. apply Forall_forall. intros p [->|Hp]%setattr_elem_of; [done|].
  by apply (proj1 (Forall_forall _ _) Hd).
Qed.

Lemma keeps_keyed_get_scen k :
  keeps keyed_by_id (λ sc, sc_id sc = k) (get_scen k).
Proof.
  intros cs Hcs. unfold get_scen.
  destruct (getattr k (scens cs)) as [sc|] eqn:Hk; simpl; [|by split].
  split; [done|]. intros ? [= <-]. apply getattr_elem_of in Hk.
  by apply (proj1 (Forall_forall _ _) Hcs (k, sc)).
Qed.

Lemma keeps_keyed_del_scen k : keeps keyed_by_id (λ _, True) (del_scen k).
Proof.
  intros cs Hcs. unfold del_scen.
  destruct (getattr k (scens cs)); simpl; [|by split]. split; [|done].
  apply Forall_forall. intros p Hp%delattr_elem_of.
  by apply (proj1 (Forall_forall _ _) Hcs).
Qed.

Lemma keeps_keyed_on_scen {A} k sc (m : Py Scenario A) :
  sc_id sc = k → keeps (λ s, sc_id s = k) (λ _, True) m →
  keeps keyed_by_id (λ _, True) (on_scen k sc m).
Proof.
  intros Hsc Hm cs Hcs. unfold on_scen.
  destruct (Hm sc Hsc) as [Hsc' _]. destruct (m sc) as [r sc']. simpl in *.
  split; [|done]. by apply keyed_setattr.
Qed.

Lemma keeps_keyed_add_scen id name doc based_on based_on_last :
  keeps keyed_by_id (λ sc, ∀ i, id = Some i → sc_id sc = i)
    (add_scen id name doc based_on based_on_last).
Proof.
  intros cs Hcs. rewrite add_scen_unfold.
  destruct (if based_on_last then _ else _) as [[[b|] doc']|e];
    [|cbv zeta|by split].
  - destruct (getattr b (scens cs)); [cbv zeta | by split].
    split; [by apply keyed_setattr | intros ? [= <-] i ->; reflexivity].
  - split; [by apply keyed_setattr | intros ? [= <-] i ->; reflexivity].
Qed.

Lemma keeps_id_apply ser k :
  keeps (λ s, sc_id s = k) (λ _, True)
    (for_each ser (λ x, apply_entity_value x.1 x.2)).
Proof.
  intros sc Hsc. split; [|done].
  destruct (for_each_apply_identity ser sc) as (Hid & _). congruence.
Qed.

Lemma keeps_id_optimize k : keeps (λ s, sc_id s = k) (λ _, True) optimize.
Proof.
  intros sc Hsc. split; [|done]. unfold optimize.
  by destruct (mdl sc) as [[code values]|].
Qed.

Lemma keeps_keyed_add_scens str_float scen_vars_arg nParetoPoints del_REF based_on :
  keeps keyed_by_id (λ _, True)
    (add_scens str_float scen_vars_arg nParetoPoints del_REF based_on).
Proof.
  unfold add_scens. cbv zeta.
  eapply keeps_bind; [by apply keeps_modify|]. intros _ _.
  eapply keeps_bind with (Q := λ _, True).
  { destruct (effective_scen_vars _ _) as [[|a l]|];
      [apply keeps_raise | by apply keeps_ret | apply keeps_raise]. }
  intros axes _.
  eapply keeps_bind with (Q := λ _, True).
  { case_bool_decide; [by apply keeps_ret | apply keeps_raise]. }
  intros _ _. eapply keeps_bind; [by apply keeps_modify|]. intros _ _.
  eapply keeps_bind.
  { apply keeps_for_each. intros col. unfold add_scens_column. cbv zeta.
    eapply keeps_bind; [apply keeps_gets|]. intros n _.
    eapply keeps_bind; [apply keeps_keyed_add_scen|]. intros sc _.
    apply keeps_keyed_on_scen; [done|].
    eapply keeps_bind; [by apply keeps_modify|]. intros _ _.
    apply keeps_id_apply. }
  intros _ _.
  destruct del_REF; [apply keeps_keyed_del_scen | by apply keeps_ret].
Qed.

Lemma keeps_keyed_improve model_func adjust_factor basis_scen_id :
  keeps keyed_by_id (λ _, True)
    (improve_pareto_norm_factors model_func adjust_factor basis_scen_id).
Proof.
  assert (Hprobe : ∀ i acc, keeps keyed_by_id (λ _, True)
            (pareto_probe model_func adjust_factor basis_scen_id i acc)).
  { intros i acc. unfold pareto_probe.
    eapply keeps_bind; [apply keeps_keyed_add_scen|]. intros sc Hsc.
    eapply keeps_bind with (Q := λ _, True).
    { apply keeps_keyed_on_scen; [by apply Hsc|].
      eapply keeps_bind; [by apply keeps_modify|]. intros _ _.
      eapply keeps_bind; [by apply keeps_modify|]. intros _ _.
      eapply keeps_bind; [apply keeps_id_optimize|]. intros _ _.
      eapply keeps_bind with (Q := λ _, True).
      { intros s Hs. by rewrite res_attr_state. }
      intros c _. cbv zeta.
      eapply keeps_bind with (Q := λ _, True).
      { intros s Hs. by rewrite res_attr_state. }
      intros ce _. by apply keeps_ret. }
    intros acc' _. eapply keeps_bind; [apply keeps_keyed_del_scen|].
    intros _ _. by apply keeps_ret. }
  unfold improve_pareto_norm_factors.
  eapply keeps_bind; [apply Hprobe|]. intros acc0 _.
  eapply keeps_bind; [apply Hprobe|]. intros acc1 _.
  apply keeps_modify. intros cs Hcs. unfold keyed_by_id. simpl.
  apply Forall_fmap. eapply Forall_impl; [exact Hcs|]. by intros [k sc].
Qed.

(** X19.  In every case study built with the methods of [CaseStudy], each
    registered scenario carries, as its own id, the id it is registered
    under: looking a scenario up by [sc.id] finds that scenario's entry. *)
Theorem reachable_keyed_by_id cs :
  reachable cs → ∀ k sc, (k, sc) ∈ scens cs → sc_id sc = k.
Proof.
  intros Hcs. assert (Hkeyed : keyed_by_id cs).
  { induction Hcs.
    - constructor.
    - by eapply keeps_state; [apply keeps_keyed_add_scen|].
    - by eapply keeps_state; [apply keeps_keyed_add_scens|].
    - by eapply keeps_state; [apply keeps_keyed_improve|].
    - eapply keeps_state; [|done]. unfold CaseStudy_set_model.
      eapply keeps_bind; [apply keeps_gets|]. intros ids _.
      apply keeps_for_each. intros k.
      eapply keeps_bind; [apply keeps_keyed_get_scen|]. intros sc Hsc.
      apply keeps_keyed_on_scen; [done|]. by apply keeps_modify.
    - eapply keeps_state; [|done]. unfold CaseStudy_optimize.
      eapply keeps_bind; [apply keeps_gets|]. intros ids _.
      apply keeps_for_each. intros k.
      eapply keeps_bind; [apply keeps_keyed_get_scen|]. intros sc Hsc.
      apply keeps_keyed_on_scen; [done | apply keeps_id_optimize].
    - eapply keeps_state; [|done]. unfold import_scens. cbv zeta.
      apply keeps_for_each_in. intros [k sc] Hin.
      case_bool_decide; [|by apply keeps_ret].
      apply keeps_modify. intros cs0 Hcs0. apply keyed_setattr; [|done].
      by apply (proj1 (Forall_forall _ _) IHHcs2 (k, sc)).
    - by eapply keeps_state; [apply keeps_keyed_del_scen|]. }
  intros k sc Hin. by apply (proj1 (Forall_forall _ _) Hkeyed (k, sc)).
Qed.

Lemma reachable_keyed_by_id_witness : keyed_by_id cs_REF.
Proof.
  apply Forall_forall. intros [k sc] Hin.
  apply (reachable_keyed_by_id cs_REF); [|exact Hin].
  unfold cs_REF, add_REF_scen. apply reach_add_scen, reach_init.
Defined.

(** ** Batches over the registry *)

Lemma setattr_app_r {A} k (v v0 : A) (d l : list (string * A)) :
  k ∉ d.*1 → setattr k v (d ++ (k, v0) :: l)%list = (d ++ (k, v) :: l)%list.
Proof.
  induction d as [|[k' v'] d IH]; simpl.
  - intros _. by rewrite decide_True.
  - rewrite not_elem_of_cons. intros [? ?]. rewrite decide_False by done.
    f_equal. auto.
Qed.

Lemma batch_step (m : Py Scenario unit) k sc l1 l3 cs :
  k ∉ l1.*1 →
  (sc0 ← get_scen k; on_scen k sc0 m) (set_scens (l1 ++ (k, sc) :: l3) cs)
  = ((m sc).1, set_scens (l1 ++ (k, (m sc).2) :: l3) cs).
Proof.
  intros Hk. unfold mbind, Py_bind, get_scen, on_scen. cbn [scens set_scens].
  rewrite getattr_app_r by done. cbn [getattr]. rewrite decide_True by done.
  destruct (m sc) as [r sc']. cbn [fst snd scens set_scens].
  by rewrite setattr_app_r.
Qed.

Lemma batch_run (m : Py Scenario unit) (l1 l2 l3 : list (string * Scenario)) cs :
  NoDup ((l1 ++ l2)%list).*1 →
  (∀ p, p ∈ l2 → (m p.2).1 = Ok tt) →
  batch m l2.*1 (set_scens (l1 ++ l2 ++ l3)%list cs)
  = (Ok tt,
     set_scens (l1 ++ (prod_map id (λ sc, (m sc).2) <$> l2) ++ l3)%list cs).
Proof.
  unfold batch. revert l1. induction l2 as [|[k sc] l2 IH]; intros l1 Hnd Hok.
  - done.
  - rewrite fmap_app, fmap_cons in Hnd. cbn [fst] in Hnd.
    apply NoDup_app in Hnd as (Hl1 & Hdisj & [Hk Hl2]%NoDup_cons).
    assert (Hk1 : k ∉ l1.*1) by (intros Hin; apply (Hdisj _ Hin); left).
    cbn [fmap list_fmap fst for_each]. unfold mbind at 1, Py_bind at 1.
    rewrite <- app_comm_cons, batch_step by done.
    pose proof (Hok (k, sc) ltac:(left)) as Hm. cbn [snd] in Hm. rewrite Hm.
    replace (l1 ++ (k, (m sc).2) :: l2 ++ l3)%list
      with ((l1 ++ [(k, (m sc).2)]) ++ l2 ++ l3)%list by by rewrite <- app_assoc.
    change ((fix go (l : list (string * Scenario)) : list string :=
               match l with [] => [] | x :: l0 => x.1 :: go l0 end) l2)
      with (l2.*1).
    rewrite IH.
    + cbn [prod_map fst snd id]. by rewrite <- app_assoc.
    + rewrite !fmap_app. cbn [fmap list_fmap fst]. rewrite <- app_assoc.
      apply NoDup_app. split_and!; [done | |].
      * intros x Hx [->|Hin2]%elem_of_cons; [done|]. apply (Hdisj _ Hx). by right.
      * by apply NoDup_cons.
    + intros p Hp. apply Hok. by right.
Qed.

(** X20.  [CaseStudy.optimize] solves the registered scenarios one after
    the other, each in place: when [Scenario.optimize] returns on every
    scenario, whatever the solve status, the batch returns and every
    scenario is the solved one, under the same id and in the same place;
    when it raises on one, the batch stops with that exception, the
    scenarios before it solved and those after it untouched. *)
Theorem CaseStudy_optimize_in_order cs :
  unique_ids cs →
  ((∀ p, p ∈ scens cs → (optimize p.2).1 = Ok tt) →
     CaseStudy_optimize None cs
     = (Ok tt, set_scens (prod_map id (λ sc, (optimize sc).2) <$> scens cs) cs)) ∧
  (∀ l1 k sc l2 e,
     scens cs = (l1 ++ (k, sc) :: l2)%list →
     (∀ p, p ∈ l1 → (optimize p.2).1 = Ok tt) →
     (optimize sc).1 = Raise e →
     CaseStudy_optimize None cs
     = (Raise e,
        set_scens ((prod_map id (λ sc, (optimize sc).2) <$> l1)
                   ++ (k, (optimize sc).2) :: l2) cs)).
Proof.
  intros Hnd. unfold unique_ids, scens_ids, scens_dic in Hnd.
  assert (Hcs : ∀ l, set_scens l (set_scens (scens cs) cs) = set_scens l cs) by done.
  assert (Hself : cs = set_scens (scens cs) cs) by by destruct cs.
  split.
  - intros Hok. unfold CaseStudy_optimize. unfold mbind at 1, Py_bind at 1, gets.
    cbn [default]. unfold scens_ids, scens_dic.
    fold (batch optimize (scens cs).*1). rewrite Hself at 2.
    pose proof (batch_run optimize [] (scens cs) [] cs) as Hrun.
    rewrite !app_nil_r in Hrun. cbn [app] in Hrun. by apply Hrun.
  - intros l1 k sc l2 e Hsplit Hok He.
    unfold CaseStudy_optimize. unfold mbind at 1, Py_bind at 1, gets.
    cbn [default]. unfold scens_ids, scens_dic.
    rewrite Hself at 2. rewrite Hsplit in *.
    rewrite fmap_app, fmap_cons. cbn [fst]. rewrite for_each_app.
    pose proof (batch_run optimize [] l1 ((k, sc) :: l2) cs) as Hrun.
    unfold batch in Hrun. cbn [app] in Hrun. rewrite Hrun; [|
      rewrite fmap_app in Hnd; by apply NoDup_app in Hnd as (? & _)|done].
    cbn [for_each]. unfold mbind at 1, Py_bind at 1.
    rewrite batch_step.
    + by rewrite He.
    + rewrite <- list_fmap_compose. change (fst ∘ _) with (@fst string Scenario).
      rewrite fmap_app, fmap_cons in Hnd.
      apply NoDup_app in Hnd as (_ & Hdisj & _). intros Hin.
      apply (Hdisj _ Hin). left.
Qed.

Lemma is_Ok_unit (r : result unit) : is_Ok r = true → r = Ok tt.
Proof. by destruct r as [[]|]. Qed.

Lemma CaseStudy_optimize_in_order_witness :
  CaseStudy_optimize None cs_modelled
  = (Ok tt, set_scens (prod_map id (λ sc, (optimize sc).2) <$> scens cs_modelled)
              cs_modelled) ∧
  ∃ sc l2, scens cs_two = ("REF", sc) :: l2 ∧
    CaseStudy_optimize None cs_two
    = (Raise (AttributeError "mdl"),
       set_scens ((prod_map id (λ sc, (optimize sc).2) <$> [])
                  ++ ("REF", (optimize sc).2) :: l2) cs_two).
Proof.
  split.
  - apply (proj1 (CaseStudy_optimize_in_order cs_modelled
                    ltac:(apply (bool_decide_unpack _); vm_compute; exact I))).
    assert (Hall : Forall (λ p, is_Ok (optimize p.2).1 = true) (scens cs_modelled))
      by (apply (bool_decide_unpack _); vm_compute; exact I).
    intros p Hp. apply is_Ok_unit. by apply (proj1 (Forall_forall _ _) Hall).
  - destruct (scens cs_two) as [|[k sc] l2] eqn:Hscens; [by vm_compute in Hscens|].
    assert (Hk : k = "REF" ∧ mdl sc = None).
    { vm_compute in Hscens. by injection Hscens as <- <- _. }
    destruct Hk as [-> Hmdl]. exists sc, l2. split; [done|].
    apply (proj2 (CaseStudy_optimize_in_order cs_two
                    ltac:(apply (bool_decide_unpack _); vm_compute; exact I))
             [] "REF" sc l2 (AttributeError "mdl")).
    + done.
    + intros p Hp. by apply elem_of_nil in Hp.
    + unfold optimize. by rewrite Hmdl.
Defined.

(** X3.  [improve_pareto_and_set_model] builds the models after the
    factors are written: when the normalisation returns, so does the whole,
    and every scenario's model is built by [set_model] from the scenario as
    the normalisation left it, the two factors included; when the
    normalisation raises, no model is built. *)
Theorem improve_pareto_and_set_model_order model_func cs :
  unique_ids cs →
  (∀ cs1, improve_pareto_norm_factors model_func 1 "REF" cs = (Ok tt, cs1) →
     improve_pareto_and_set_model model_func cs
     = (Ok tt, set_scens (prod_map id (set_model model_func) <$> scens cs1) cs1)) ∧
  (∀ e cs1, improve_pareto_norm_factors model_func 1 "REF" cs = (Raise e, cs1) →
     improve_pareto_and_set_model model_func cs = (Raise e, cs1)).
Proof.
  intros Hnd. unfold improve_pareto_and_set_model. split.
  - intros cs1 Hrun. unfold mbind at 1, Py_bind at 1. rewrite Hrun.
    assert (Hnd1 : unique_ids cs1).
    { pose proof (keeps_state _ _ _ cs (keeps_unique_improve model_func 1 "REF") Hnd)
        as H1. by rewrite Hrun in H1. }
    unfold CaseStudy_set_model. unfold mbind at 1, Py_bind at 1, gets.
    cbn [default]. unfold scens_ids, scens_dic.
    fold (batch (modify (set_model model_func)) (scens cs1).*1).
    assert (Hself : cs1 = set_scens (scens cs1) cs1) by by destruct cs1.
    rewrite Hself at 2.
    pose proof (batch_run (modify (set_model model_func)) [] (scens cs1) [] cs1) as Hb.
    rewrite !app_nil_r in Hb. cbn [app] in Hb. by apply Hb.
  - intros e cs1 Hrun. unfold mbind at 1, Py_bind at 1. by rewrite Hrun.
Qed.

Lemma improve_pareto_and_set_model_order_witness :
  improve_pareto_and_set_model demo_model cs_REF
  = (Ok tt, set_scens (prod_map id (set_model demo_model) <$> scens cs_normalised)
              cs_normalised) ∧
  improve_pareto_and_set_model demo_model (CaseStudy_init default_obj_vars)
  = (Raise (AttributeError "REF"), CaseStudy_init default_obj_vars).
Proof.
  split.
  - apply (proj1 (improve_pareto_and_set_model_order demo_model cs_REF
                    ltac:(apply (bool_decide_unpack _); vm_compute; exact I))).
    vm_compute. reflexivity.
  - apply (proj2 (improve_pareto_and_set_model_order demo_model
                    (CaseStudy_init default_obj_vars) ltac:(constructor))).
    reflexivity.
Defined.
